(** * Caching core of gin-clean-template (pkg/cache)

    Shallow embedding of the in-process stores [LRUCache] and [FIFOCache]
    (pkg/cache/lru-cache.go and the FIFO file), and of
    [GetWithMultiLevelCache] with its package-level singleflight group. *)

From Stdlib Require Import String ZArith List Lia Bool.
Import ListNotations.
Open Scope Z_scope.

(** ** Values, time and durations *)

(** Go's [any] as carried by the caches: [nil] and a few payloads. *)
Inductive any : Type :=
| Nil
| AInt (z : Z)
| AStr (s : string).

(** Time is an int64 count of nanoseconds; [time.Second]. *)
Definition second : Z := 1000000000.

(** Two's-complement wrap-around of a signed 64-bit integer. *)
Definition wrap64 (z : Z) : Z := (z + 2 ^ 63) mod 2 ^ 64 - 2 ^ 63.

(** [time.Duration(ttlSeconds) * time.Second]. *)
Definition ttl_duration (ttlSeconds : Z) : Z := wrap64 (ttlSeconds * second).

(** [int(d.Seconds())] for a duration: exact for whole-second durations. *)
Definition duration_seconds (d : Z) : Z := Z.quot d second.

(** [now.After(t)]. *)
Definition after (now t : Z) : bool := t <? now.

(** ** Store state *)

(** [CacheData]. *)
Record CacheData := mkCacheData { Value : any; Timeout : Z }.

(** [lruItem] / [fifoItem]: the key together with its data. *)
Definition Item : Type := (string * CacheData)%type.

Inductive Policy := LRU | FIFO.

(** [LRUCache] / [FIFOCache].  [items] is the [container/list] from front
    to back; [cacheData] maps each key to the list element holding it, and
    every [PushBack]/[Remove] of the code is paired with the matching map
    insert/delete, so a map lookup is modelled as a lookup of the element
    with that key in the list.  [stopClosed] records whether [stopChan] has
    been closed.  [spawned] holds the keys of the [go c.Delete(key)]
    goroutines started by FIFO reads and not yet run. *)
Record Store := mkStore {
  policy : Policy;
  maxSize : Z;
  defaultTtl : Z;
  items : list Item;
  stopClosed : bool;
  spawned : list string }.

Definition with_items (s : Store) (l : list Item) : Store :=
  mkStore (policy s) (maxSize s) (defaultTtl s) l (stopClosed s) (spawned s).

(** [NewLRUCache] / [NewFIFOCache]: [NewCache] picks the policy, with LRU
    as the fallback for an unknown type string. *)
Definition NewStore (p : Policy) (maxSize defaultTtlSeconds : Z) : Store :=
  mkStore p maxSize (ttl_duration defaultTtlSeconds) [] false [].

Definition NewCache (typ : string) (capacity defaultTTL : Z) : Store :=
  if String.eqb typ "FIFO" then NewStore FIFO capacity defaultTTL
  else NewStore LRU capacity defaultTTL.

(** ** container/list operations over the item list *)

(** [c.cacheData[key]]: the element holding [key]. *)
Fixpoint lookup (key : string) (l : list Item) : option CacheData :=
  match l with
  | [] => None
  | (k, d) :: tl => if String.eqb k key then Some d else lookup key tl
  end.

(** [c.list.Remove(element)] for the element holding [key]. *)
Fixpoint remove_key (key : string) (l : list Item) : list Item :=
  match l with
  | [] => []
  | (k, d) :: tl => if String.eqb k key then tl else (k, d) :: remove_key key tl
  end.

(** Writing [item.data] through the element holding [key]. *)
Fixpoint update_key (key : string) (d' : CacheData) (l : list Item) : list Item :=
  match l with
  | [] => []
  | (k, d) :: tl =>
      if String.eqb k key then (k, d') :: tl else (k, d) :: update_key key d' tl
  end.

(** [c.list.MoveToBack(element)] for the element holding [key]. *)
Definition move_to_back (key : string) (l : list Item) : list Item :=
  match lookup key l with
  | Some d => remove_key key l ++ [(key, d)]
  | None => l
  end.

(** Removing [c.list.Front()] when it is not nil. *)
Definition remove_front (l : list Item) : list Item :=
  match l with
  | [] => []
  | _ :: tl => tl
  end.

(** ** The store operations *)

(** [SetWithTTL(key, value, ttlSeconds)] at time [now]. *)
Definition SetWithTTL (s : Store) (key : string) (value : any) (ttlSeconds now : Z)
  : Store :=
  let d' := mkCacheData value (now + ttl_duration ttlSeconds) in
  match lookup key (items s) with
  | Some _ =>
      match policy s with
      | LRU => with_items s (move_to_back key (update_key key d' (items s)))
      | FIFO => with_items s (update_key key d' (items s))
      end
  | None =>
      let l1 := if maxSize s <=? Z.of_nat (length (items s))
                then remove_front (items s) else items s in
      with_items s (l1 ++ [(key, d')])
  end.

(** [Set(key, value)]. *)
Definition Set_ (s : Store) (key : string) (value : any) (now : Z) : Store :=
  SetWithTTL s key value (duration_seconds (defaultTtl s)) now.

(** [Get(key)] at time [now]: the new store and [(value, found)]. *)
Definition Get (s : Store) (key : string) (now : Z) : Store * (any * bool) :=
  match lookup key (items s) with
  | None => (s, (Nil, false))
  | Some d =>
      if after now (Timeout d) then
        match policy s with
        | LRU => (with_items s (remove_key key (items s)), (Value d, false))
        | FIFO =>
            (mkStore (policy s) (maxSize s) (defaultTtl s) (items s)
               (stopClosed s) (spawned s ++ [key]), (Value d, false))
        end
      else
        match policy s with
        | LRU => (with_items s (move_to_back key (items s)), (Value d, true))
        | FIFO => (s, (Value d, true))
        end
  end.

(** [Delete(key)]. *)
Definition Delete (s : Store) (key : string) : Store :=
  match lookup key (items s) with
  | Some _ => with_items s (remove_key key (items s))
  | None => s
  end.

(** The goroutine [go c.Delete(key)] at position [j] of [spawned] runs. *)
Definition RunSpawned (s : Store) (j : nat) : Store :=
  match nth_error (spawned s) j with
  | None => s
  | Some key =>
      let s' := Delete s key in
      mkStore (policy s') (maxSize s') (defaultTtl s') (items s') (stopClosed s')
        (firstn j (spawned s) ++ skipn (S j) (spawned s))
  end.

(** [GetAll()] at time [now]: the non-expired pairs. *)
Definition GetAll (s : Store) (now : Z) : list (string * any) :=
  map (fun it => (fst it, Value (snd it)))
    (filter (fun it => negb (after now (Timeout (snd it)))) (items s)).

(** [Size()] and [MaxSize()]. *)
Definition Size (s : Store) : Z := Z.of_nat (length (items s)).
Definition MaxSize (s : Store) : Z := maxSize s.

(** [Clear()]. *)
Definition Clear (s : Store) : Store := with_items s [].

(** One tick of [cleanupExpiredKeys]: remove every expired element. *)
Definition Sweep (s : Store) (now : Z) : Store :=
  with_items s (filter (fun it => negb (after now (Timeout (snd it)))) (items s)).

(** Outcome of a call that may panic. *)
Inductive Outcome (A : Type) :=
| Ok (a : A)
| Panic (msg : string).
Arguments Ok {A} a.
Arguments Panic {A} msg.

(** [Stop()]: [close(c.stopChan)]; closing a closed channel panics. *)
Definition Stop (s : Store) : Outcome Store :=
  if stopClosed s then Panic "close of closed channel"
  else Ok (mkStore (policy s) (maxSize s) (defaultTtl s) (items s) true (spawned s)).

(** [Keys()] and [Values()] at time [now]: the non-expired elements, front
    to back. *)
Definition Keys (s : Store) (now : Z) : list string :=
  map fst (filter (fun it => negb (after now (Timeout (snd it)))) (items s)).

Definition Values (s : Store) (now : Z) : list any :=
  map (fun it => Value (snd it))
    (filter (fun it => negb (after now (Timeout (snd it)))) (items s)).

(** [GetLRU()] of [LRUCache]: the front element, if not expired. *)
Definition GetLRU (s : Store) (now : Z) : string * any * bool :=
  match items s with
  | [] => (""%string, Nil, false)
  | (k, d) :: _ => if after now (Timeout d) then (""%string, Nil, false) else (k, Value d, true)
  end.

(** [GetMRU()] of [LRUCache]: the back element, if not expired. *)
Definition GetMRU (s : Store) (now : Z) : string * any * bool :=
  match rev (items s) with
  | [] => (""%string, Nil, false)
  | (k, d) :: _ => if after now (Timeout d) then (""%string, Nil, false) else (k, Value d, true)
  end.

(** [Touch(key)] of [LRUCache] at time [now]. *)
Definition Touch (s : Store) (key : string) (now : Z) : Store * bool :=
  match lookup key (items s) with
  | None => (s, false)
  | Some d =>
      if after now (Timeout d) then (with_items s (remove_key key (items s)), false)
      else (with_items s (move_to_back key (items s)), true)
  end.

(** Store keys from front to back of the list. *)
Definition Keys_all (s : Store) : list string := map fst (items s).

(** ** Sequences of operations *)

Inductive Op :=
| OGet (key : string)
| OSet (key : string) (value : any)
| OSetWithTTL (key : string) (value : any) (ttlSeconds : Z)
| ODelete (key : string)
| OClear
| OSweep
| ORunSpawned (j : nat).

Definition exec_op (s : Store) (now : Z) (o : Op) : Store :=
  match o with
  | OGet k => fst (Get s k now)
  | OSet k v => Set_ s k v now
  | OSetWithTTL k v t => SetWithTTL s k v t now
  | ODelete k => Delete s k
  | OClear => Clear s
  | OSweep => Sweep s now
  | ORunSpawned j => RunSpawned s j
  end.

(** Each operation carries the time at which it runs. *)
Fixpoint run (s : Store) (ops : list (Z * Op)) : Store :=
  match ops with
  | [] => s
  | (t, o) :: tl => run (exec_op s t o) tl
  end.

(** Well-formed store: each key held by at most one element. *)
Definition wf (s : Store) : Prop := NoDup (Keys_all s).

(** ** The multi-level Get (GetWithMultiLevelCache) *)

Definition error : Type := string.

(** The [(any, error)] pair returned by the fetch function and by the
    multi-level Get; [None] is a nil error. *)
Definition Result : Type := (any * option error)%type.

(** A Redis payload: [PJson v] is the JSON text [json.Marshal] produces for
    [v], which [json.Unmarshal] decodes back to [v]; [PRaw s] is any other
    string, on which decoding fails. *)
Inductive Payload :=
| PJson (v : any)
| PRaw (s : string).

(** The parameters of one call: key, tier-1 store (an index into the
    world's stores), the reply its [fetchAPI] gives, [memTTL],
    [redisTTL] and [syncToRedis]. *)
Record Cfg := mkCfg {
  c_key : string;
  c_store : nat;
  c_fetch : Result;
  c_memTTL : Z;
  c_redisTTL : Z;
  c_sync : bool }.

(** Program points of one call.  [fid] is the singleflight call the
    stepping goroutine executes ([doCall]) or waits on. *)
Inductive PC :=
| PStart                        (* memCache.Get on the fast path *)
| PDo                           (* sfGroup.Do(key, fn) *)
| PRecheck (fid : nat)          (* fn: memCache.Get again *)
| PRemote (fid : nat)           (* fn: redisClient.Get + json.Unmarshal *)
| PRemoteSet (fid : nat) (v : any) (* fn: memCache.SetWithTTL after a Redis hit *)
| PFetch (fid : nat)            (* fn: fetchAPI *)
| PMemSet (fid : nat) (v : any) (* fn: memCache.SetWithTTL after the fetch *)
| PSync (fid : nat) (v : any)   (* fn: redisClient.Set when syncToRedis *)
| PFinish (fid : nat) (r : Result) (* doCall: publish c.val, c.err; delete g.m[key] *)
| PWait (fid : nat)             (* c.wg.Wait() on another goroutine's call *)
| PDone (r : Result).           (* returned *)

(** The shared state: tier-1 stores, the Redis contents and whether Redis
    answers, the package-level [sfGroup] ([g.m]: key to in-flight call),
    the published results of finished calls, a call counter, the log of
    [fetchAPI] executions (the goroutine that ran each), the goroutines
    and the clock. *)
Record World := mkWorld {
  stores : list Store;
  redis : list (string * Payload);
  redis_up : bool;
  sfGroup : list (string * nat);
  calls : list (nat * Result);
  next_call : nat;
  fetch_log : list nat;
  threads : list (Cfg * PC);
  clock : Z }.

Fixpoint assoc {A B : Type} (eqb : A -> A -> bool) (k : A) (l : list (A * B)) : option B :=
  match l with
  | [] => None
  | (k', b) :: tl => if eqb k' k then Some b else assoc eqb k tl
  end.

Fixpoint assoc_remove {B : Type} (k : string) (l : list (string * B)) : list (string * B) :=
  match l with
  | [] => []
  | (k', b) :: tl => if String.eqb k' k then assoc_remove k tl else (k', b) :: assoc_remove k tl
  end.

(** Replace the element at index [i] (no change out of range). *)
Fixpoint replace_nth {A : Type} (l : list A) (i : nat) (x : A) : list A :=
  match l, i with
  | [], _ => []
  | _ :: tl, O => x :: tl
  | y :: tl, S i' => y :: replace_nth tl i' x
  end.

Definition dflt_store : Store := NewStore LRU 0 0.

Definition store_at (w : World) (si : nat) : Store := nth si (stores w) dflt_store.

Definition set_store (w : World) (si : nat) (st : Store) : World :=
  mkWorld (replace_nth (stores w) si st) (redis w) (redis_up w) (sfGroup w)
    (calls w) (next_call w) (fetch_log w) (threads w) (clock w).

Definition set_pc (w : World) (i : nat) (c : Cfg) (pc : PC) : World :=
  mkWorld (stores w) (redis w) (redis_up w) (sfGroup w) (calls w) (next_call w)
    (fetch_log w) (replace_nth (threads w) i (c, pc)) (clock w).

(** [redisClient.Get(ctx, key).Result()] followed by the test
    [err == nil && redisVal != ""] and [json.Unmarshal]. *)
Definition redis_hit (w : World) (k : string) : option any :=
  if redis_up w then
    match assoc String.eqb k (redis w) with
    | Some (PJson v) => Some v
    | Some (PRaw _) | None => None
    end
  else None.

(** [redisClient.Set(ctx, key, json.Marshal(v), ttl)]; its error is
    ignored. *)
Definition redis_set (w : World) (k : string) (v : any) : World :=
  if redis_up w then
    mkWorld (stores w) ((k, PJson v) :: assoc_remove k (redis w)) (redis_up w)
      (sfGroup w) (calls w) (next_call w) (fetch_log w) (threads w) (clock w)
  else w.

(** [sfGroup.Do] entering: a new call [next_call] is registered in [g.m]. *)
Definition group_add (w : World) (k : string) : World :=
  mkWorld (stores w) (redis w) (redis_up w) ((k, next_call w) :: sfGroup w)
    (calls w) (S (next_call w)) (fetch_log w) (threads w) (clock w).

(** [doCall] finishing: the result is published ([c.wg.Done()]) and
    [g.m[key]] is deleted if it still is this call. *)
Definition group_finish (w : World) (k : string) (fid : nat) (r : Result) : World :=
  let g := sfGroup w in
  let g' := match assoc String.eqb k g with
            | Some f => if Nat.eqb f fid then assoc_remove k g else g
            | None => g
            end in
  mkWorld (stores w) (redis w) (redis_up w) g' ((fid, r) :: calls w)
    (next_call w) (fetch_log w) (threads w) (clock w).

Definition log_fetch (w : World) (i : nat) : World :=
  mkWorld (stores w) (redis w) (redis_up w) (sfGroup w) (calls w) (next_call w)
    (i :: fetch_log w) (threads w) (clock w).

(** One atomic step of goroutine [i]. *)
Definition step_thread (w : World) (i : nat) : World :=
  match nth_error (threads w) i with
  | None => w
  | Some (c, pc) =>
      let k := c_key c in
      let si := c_store c in
      let now := clock w in
      match pc with
      | PStart =>
          let '(st', (v, ok)) := Get (store_at w si) k now in
          set_pc (set_store w si st') i c (if ok then PDone (v, None) else PDo)
      | PDo =>
          match assoc String.eqb k (sfGroup w) with
          | Some fid => set_pc w i c (PWait fid)
          | None => set_pc (group_add w k) i c (PRecheck (next_call w))
          end
      | PRecheck fid =>
          let '(st', (v, ok)) := Get (store_at w si) k now in
          set_pc (set_store w si st') i c (if ok then PFinish fid (v, None) else PRemote fid)
      | PRemote fid =>
          match redis_hit w k with
          | Some v => set_pc w i c (PRemoteSet fid v)
          | None => set_pc w i c (PFetch fid)
          end
      | PRemoteSet fid v =>
          set_pc (set_store w si (SetWithTTL (store_at w si) k v (c_memTTL c) now))
            i c (PFinish fid (v, None))
      | PFetch fid =>
          match c_fetch c with
          | (_, Some e) => set_pc (log_fetch w i) i c (PFinish fid (Nil, Some e))
          | (v, None) => set_pc (log_fetch w i) i c (PMemSet fid v)
          end
      | PMemSet fid v =>
          set_pc (set_store w si (SetWithTTL (store_at w si) k v (c_memTTL c) now))
            i c (if c_sync c then PSync fid v else PFinish fid (v, None))
      | PSync fid v => set_pc (redis_set w k v) i c (PFinish fid (v, None))
      | PFinish fid r => set_pc (group_finish w k fid r) i c (PDone r)
      | PWait fid =>
          match assoc Nat.eqb fid (calls w) with
          | Some r => set_pc w i c (PDone r)
          | None => w
          end
      | PDone _ => w
      end
  end.

(** Time passing by [d] nanoseconds between steps: [time.Now()] as
    read by [Get] and [SetWithTTL] (monotonic, so it never goes back). *)
Definition tick (w : World) (d : nat) : World :=
  mkWorld (stores w) (redis w) (redis_up w) (sfGroup w) (calls w) (next_call w)
    (fetch_log w) (threads w) (clock w + Z.of_nat d).

(** Scheduler events: a step of a Get goroutine, the run of the [j]-th
    spawned [go c.Delete(key)] of store [si], or time passing. *)
Inductive Event :=
| Thr (i : nat)
| SpawnedDelete (si j : nat)
| Tick (d : nat).

Definition step (w : World) (e : Event) : World :=
  match e with
  | Thr i => step_thread w i
  | SpawnedDelete si j => set_store w si (RunSpawned (store_at w si) j)
  | Tick d => tick w d
  end.

Definition run_world (w : World) (sched : list Event) : World := fold_left step sched w.

(** A fresh world: [K] calls with configuration [c] against store list
    [sts], Redis contents [rd], from clock [now]. *)
Definition init_world (sts : list Store) (rd : list (string * Payload)) (up : bool)
    (cs : list Cfg) (now : Z) : World :=
  mkWorld sts rd up [] [] 0 [] (map (fun c => (c, PStart)) cs) now.

Definition is_done (p : Cfg * PC) : bool :=
  match snd p with PDone _ => true | _ => false end.

(** ** Invariants of the world used in the proofs *)

(** Every call is for key [k] on store 0 and its fetch fails with [e]. *)
Definition err_cfg (k : string) (x : any) (e : error) (c : Cfg) : Prop :=
  c_key c = k /\ c_store c = 0%nat /\ c_fetch c = (x, Some e).

(** Store 0 on the error path: at most the entry of [k] removed, and
    only deletes of [k] pending. *)
Definition err_st_ok (k : string) (I0 : list Item) (st : Store) : Prop :=
  (items st = I0 \/ items st = remove_key k I0) /\ Forall (eq k) (spawned st).

(** Program points reachable when fetch fails and nothing is found. *)
Definition err_pc (e : error) (pc : PC) : Prop :=
  match pc with
  | PRemoteSet _ _ | PMemSet _ _ | PSync _ _ => False
  | PFinish _ r | PDone r => r = (Nil, Some e)
  | _ => True
  end.

Definition err_inv (k : string) (x : any) (e : error) (now : Z) (I0 : list Item)
    (rd : list (string * Payload)) (up : bool) (w : World) : Prop :=
  (0 < length (stores w))%nat /\
  (items (store_at w 0) = I0 \/ items (store_at w 0) = remove_key k I0) /\
  Forall (eq k) (spawned (store_at w 0)) /\
  redis w = rd /\ redis_up w = up /\ now <= clock w /\
  Forall (fun p => snd p = (Nil, Some e)) (calls w) /\
  (forall i c pc, nth_error (threads w) i = Some (c, pc) -> err_cfg k x e c /\ err_pc e pc).

(** Every call is for key [k] on store 0, its fetch succeeds with [v]
    and it writes tier 1 with TTL [m]. *)
Definition once_cfg (k : string) (v : any) (m : Z) (c : Cfg) : Prop :=
  c_key c = k /\ c_store c = 0%nat /\ c_fetch c = (v, None) /\ c_memTTL c = m.

Definition has_live (k : string) (v : any) (now : Z) (st : Store) : Prop :=
  exists d, lookup k (items st) = Some d /\ Value d = v /\ after now (Timeout d) = false.

(** Nothing fetched; fetched but not yet in tier 1; [v] in tier 1 and
    live until time [T] at least. *)
Definition phaseA (k : string) (w : World) : Prop :=
  fetch_log w = [] /\ lookup k (items (store_at w 0)) = None /\ redis_hit w k = None.
Definition phaseB (k : string) (w : World) : Prop :=
  length (fetch_log w) = 1%nat /\ lookup k (items (store_at w 0)) = None.
Definition phaseC (k : string) (v : any) (T : Z) (w : World) : Prop :=
  length (fetch_log w) = 1%nat /\ has_live k v T (store_at w 0).

(** The program points of the goroutine executing a singleflight call. *)
Definition is_leader (pc : PC) : bool :=
  match pc with
  | PRecheck _ | PRemote _ | PRemoteSet _ _ | PFetch _ | PMemSet _ _ | PSync _ _
  | PFinish _ _ => true
  | _ => false
  end.

Definition uniq_leaders (ts : list (Cfg * PC)) : Prop :=
  forall i j ci cj pi pj, i <> j ->
    nth_error ts i = Some (ci, pi) -> nth_error ts j = Some (cj, pj) ->
    is_leader pi = true -> is_leader pj = false.

Definition once_pc (k : string) (v : any) (T : Z) (w : World) (pc : PC) : Prop :=
  match pc with
  | PStart | PDo => True
  | PRecheck fid => sfGroup w = [(k, fid)] /\ (phaseA k w \/ phaseC k v T w)
  | PRemote fid | PFetch fid => sfGroup w = [(k, fid)] /\ phaseA k w
  | PRemoteSet _ _ => False
  | PMemSet fid v' => sfGroup w = [(k, fid)] /\ v' = v /\ phaseB k w
  | PSync fid v' => sfGroup w = [(k, fid)] /\ v' = v /\ phaseC k v T w
  | PFinish fid r => sfGroup w = [(k, fid)] /\ r = (v, None) /\ phaseC k v T w
  | PWait fid => sfGroup w = [(k, fid)] \/ assoc Nat.eqb fid (calls w) <> None
  | PDone r => r = (v, None) /\ phaseC k v T w
  end.

(** The calls started at time [now]; a value written to tier 1 since
    then stays live until [now + memTTL]. *)
Definition once_inv (k : string) (v : any) (m : Z) (now : Z) (w : World) : Prop :=
  (0 < length (stores w))%nat /\ wf (store_at w 0) /\ ~ In k (spawned (store_at w 0)) /\
  now <= clock w /\
  (phaseA k w \/ phaseB k w \/ phaseC k v (now + ttl_duration m) w) /\
  ((sfGroup w = [] /\ (phaseA k w \/ phaseC k v (now + ttl_duration m) w) /\
    forall i c pc, nth_error (threads w) i = Some (c, pc) -> is_leader pc = false)
   \/ exists fid, sfGroup w = [(k, fid)]) /\
  uniq_leaders (threads w) /\
  (calls w <> [] -> phaseC k v (now + ttl_duration m) w) /\
  Forall (fun p => snd p = (v, None)) (calls w) /\
  (forall i c pc, nth_error (threads w) i = Some (c, pc) ->
     once_cfg k v m c /\ once_pc k v (now + ttl_duration m) w pc).

(** Calls made with [syncToRedis = false] (as by
    [GetWithMultiLevelCacheDefault] and [GetWithMultiLevelCacheSimple]):
    tier 2 still holds [rd] and no goroutine is about to write it. *)
Definition nosync_inv (rd : list (string * Payload)) (w : World) : Prop :=
  redis w = rd /\
  forall i c pc, nth_error (threads w) i = Some (c, pc) ->
    c_sync c = false /\ match pc with PSync _ _ => False | _ => True end.

(** ** Lemmas on the list operations *)

Lemma lookup_None_notin : forall k l, lookup k l = None <-> ~ In k (map fst l).
Proof.
  intros k l; induction l as [|[k' d] tl IH]; simpl.
  - tauto.
  - destruct (String.eqb_spec k' k) as [->|Hne].
    + split; [discriminate | intros H; exfalso; auto].
    + rewrite IH; split; intros H; [intros [E|E]; [congruence|tauto] | auto].
Qed.

Lemma lookup_Some_in : forall k l d, lookup k l = Some d -> In k (map fst l).
Proof.
  intros k l d; induction l as [|[k' d'] tl IH]; simpl; [discriminate|].
  destruct (String.eqb_spec k' k); auto.
Qed.

Lemma remove_key_length : forall k l d,
  lookup k l = Some d -> S (length (remove_key k l)) = length l.
Proof.
  intros k l d; induction l as [|[k' d'] tl IH]; simpl; [discriminate|].
  destruct (String.eqb k' k); simpl; auto.
Qed.

Lemma remove_key_length_le : forall k l, (length (remove_key k l) <= length l)%nat.
Proof.
  intros k l; induction l as [|[k' d'] tl IH]; simpl; [lia|].
  destruct (String.eqb k' k); simpl; lia.
Qed.

Lemma in_remove_key : forall k x l,
  In x (map fst (remove_key k l)) -> In x (map fst l).
Proof.
  intros k x l; induction l as [|[k' d'] tl IH]; simpl; [tauto|].
  destruct (String.eqb k' k); simpl; tauto.
Qed.

Lemma remove_key_nodup : forall k l,
  NoDup (map fst l) -> NoDup (map fst (remove_key k l)).
Proof.
  intros k l; induction l as [|[k' d'] tl IH]; simpl; intros H; [constructor|].
  inversion H as [|? ? Hn Hd]; subst.
  destruct (String.eqb k' k); simpl; auto.
  constructor; auto. intros Hin; apply Hn, (in_remove_key k); exact Hin.
Qed.

Lemma remove_key_notin : forall k l,
  NoDup (map fst l) -> ~ In k (map fst (remove_key k l)).
Proof.
  intros k l; induction l as [|[k' d'] tl IH]; simpl; intros H; [tauto|].
  inversion H as [|? ? Hn Hd]; subst.
  destruct (String.eqb_spec k' k) as [->|Hne]; simpl; auto.
  intros [E|E]; [congruence|]. apply (IH Hd E).
Qed.

Lemma update_key_keys : forall k d l, map fst (update_key k d l) = map fst l.
Proof.
  intros k d l; induction l as [|[k' d'] tl IH]; simpl; auto.
  destruct (String.eqb k' k); simpl; congruence.
Qed.

Lemma lookup_update_key : forall k d l d0,
  lookup k l = Some d0 -> lookup k (update_key k d l) = Some d.
Proof.
  intros k d l d0; induction l as [|[k' d'] tl IH]; simpl; [discriminate|].
  destruct (String.eqb k' k) eqn:E; simpl; rewrite E; auto.
Qed.

Lemma lookup_app_notin : forall k l1 l2,
  ~ In k (map fst l1) -> lookup k (l1 ++ l2) = lookup k l2.
Proof.
  intros k l1 l2; induction l1 as [|[k' d'] tl IH]; simpl; intros H; auto.
  destruct (String.eqb_spec k' k); [exfalso; auto | auto].
Qed.

Lemma length_update_key : forall k d l, length (update_key k d l) = length l.
Proof.
  intros k d l; induction l as [|[k' d'] tl IH]; simpl; auto.
  destruct (String.eqb k' k); simpl; auto.
Qed.

Lemma length_move_to_back : forall k l, length (move_to_back k l) = length l.
Proof.
  intros k l; unfold move_to_back.
  destruct (lookup k l) eqn:E; auto.
  rewrite length_app; simpl. rewrite <- (remove_key_length k l c E); lia.
Qed.

Lemma keys_move_to_back_nodup : forall k l,
  NoDup (map fst l) -> NoDup (map fst (move_to_back k l)).
Proof.
  intros k l H; unfold move_to_back.
  destruct (lookup k l); auto.
  rewrite map_app; simpl. apply NoDup_app; auto using remove_key_nodup.
  - constructor; [tauto | constructor].
  - intros x Hx [E|[]]; subst. exact (remove_key_notin _ _ H Hx).
Qed.

Lemma lookup_move_to_back : forall k l d,
  NoDup (map fst l) -> lookup k l = Some d -> lookup k (move_to_back k l) = Some d.
Proof.
  intros k l d H E; unfold move_to_back; rewrite E.
  rewrite lookup_app_notin by (apply remove_key_notin; exact H).
  simpl; rewrite String.eqb_refl; reflexivity.
Qed.

Lemma filter_keys_nodup : forall (f : Item -> bool) l,
  NoDup (map fst l) -> NoDup (map fst (filter f l)).
Proof.
  intros f l; induction l as [|[k' d'] tl IH]; simpl; intros H; [constructor|].
  inversion H as [|? ? Hn Hd]; subst.
  destruct (f (k', d')); simpl; auto.
  constructor; auto. intros Hin; apply Hn.
  apply in_map_iff in Hin as [[x dx] [Ex Hx]]; simpl in Ex; subst.
  apply filter_In in Hx as [Hx _]. apply (in_map fst) in Hx; exact Hx.
Qed.

Lemma remove_front_nodup : forall l,
  NoDup (map fst l) -> NoDup (map fst (remove_front l)).
Proof. intros [|x tl] H; simpl in *; [constructor | inversion H; auto]. Qed.

Lemma in_remove_front : forall x l,
  In x (map fst (remove_front l)) -> In x (map fst l).
Proof. intros x [|y tl]; simpl; tauto. Qed.

(** ** Store invariants over every operation *)

Lemma Delete_fields : forall s k,
  maxSize (Delete s k) = maxSize s /\ policy (Delete s k) = policy s.
Proof. intros s k; unfold Delete; destruct (lookup k (items s)); simpl; auto. Qed.

Lemma exec_op_fields : forall s now o,
  maxSize (exec_op s now o) = maxSize s /\ policy (exec_op s now o) = policy s.
Proof.
  intros s now o; destruct o; simpl.
  - unfold Get; destruct (lookup key (items s)); simpl; auto.
    destruct (after now (Timeout c)), (policy s) eqn:Ep; simpl; split; congruence.
  - unfold Set_, SetWithTTL; destruct (lookup key (items s)); simpl; auto.
    destruct (policy s) eqn:Ep; simpl; auto.
  - unfold SetWithTTL; destruct (lookup key (items s)); simpl; auto.
    destruct (policy s) eqn:Ep; simpl; auto.
  - apply Delete_fields.
  - simpl; auto.
  - simpl; auto.
  - unfold RunSpawned; destruct (nth_error (spawned s) j); simpl; auto.
    apply Delete_fields.
Qed.

Lemma run_fields : forall ops s,
  maxSize (run s ops) = maxSize s /\ policy (run s ops) = policy s.
Proof.
  induction ops as [|[t o] tl IH]; intros s; simpl; auto.
  destruct (IH (exec_op s t o)) as [H1 H2].
  destruct (exec_op_fields s t o) as [H3 H4]; split; congruence.
Qed.

Lemma SetWithTTL_size : forall s key v ttl now,
  0 < maxSize s -> Size s <= maxSize s ->
  Size (SetWithTTL s key v ttl now) <= maxSize s.
Proof.
  intros s key v ttl now Hpos Hle; unfold SetWithTTL, Size in *.
  destruct (lookup key (items s)) eqn:E.
  - destruct (policy s); simpl.
    + rewrite length_move_to_back, length_update_key; exact Hle.
    + rewrite length_update_key; exact Hle.
  - simpl; rewrite length_app; simpl.
    destruct (Z.leb_spec (maxSize s) (Z.of_nat (length (items s)))).
    + destruct (items s) as [|x tl]; simpl in *; lia.
    + lia.
Qed.

Lemma exec_op_size : forall s now o,
  0 < maxSize s -> Size s <= maxSize s -> Size (exec_op s now o) <= maxSize s.
Proof.
  intros s now o Hpos Hle.
  assert (Hrm : forall k, Size (with_items s (remove_key k (items s))) <= maxSize s).
  { intros k; unfold Size in *; simpl. pose proof (remove_key_length_le k (items s)); lia. }
  assert (Hdel : forall k, Size (Delete s k) <= maxSize s).
  { intros k; unfold Delete; destruct (lookup k (items s)); auto. }
  destruct o; simpl.
  - unfold Get; destruct (lookup key (items s)); simpl; auto.
    destruct (after now (Timeout c)), (policy s); simpl; auto.
    unfold Size in *; simpl; rewrite length_move_to_back; exact Hle.
  - apply SetWithTTL_size; auto.
  - apply SetWithTTL_size; auto.
  - apply Hdel.
  - unfold Size; simpl; lia.
  - unfold Size in *; unfold Sweep, with_items; cbn [items].
    apply Z.le_trans with (Z.of_nat (length (items s))); [|exact Hle].
    apply Nat2Z.inj_le, filter_length_le.
  - unfold RunSpawned; destruct (nth_error (spawned s) j); auto.
    specialize (Hdel s0); unfold Size in *; simpl; exact Hdel.
Qed.

Lemma run_size : forall ops s,
  0 < maxSize s -> Size s <= maxSize s -> Size (run s ops) <= maxSize s.
Proof.
  induction ops as [|[t o] tl IH]; intros s Hpos Hle; simpl; auto.
  destruct (exec_op_fields s t o) as [Hm _].
  rewrite <- Hm. apply IH; rewrite Hm; auto using exec_op_size.
Qed.

Lemma SetWithTTL_wf : forall s key v ttl now, wf s -> wf (SetWithTTL s key v ttl now).
Proof.
  intros s key v ttl now H; unfold wf, Keys_all, SetWithTTL in *.
  destruct (lookup key (items s)) eqn:E.
  - destruct (policy s); simpl.
    + apply keys_move_to_back_nodup; rewrite update_key_keys; exact H.
    + rewrite update_key_keys; exact H.
  - simpl. apply lookup_None_notin in E.
    assert (Hl : NoDup (map fst (if maxSize s <=? Z.of_nat (length (items s))
                                 then remove_front (items s) else items s))
              /\ ~ In key (map fst (if maxSize s <=? Z.of_nat (length (items s))
                                   then remove_front (items s) else items s))).
    { destruct (_ <=? _); split; auto using remove_front_nodup.
      intros Hin; apply E, in_remove_front; exact Hin. }
    destruct Hl as [Hn Hk]. rewrite map_app; simpl.
    apply NoDup_app; auto.
    + constructor; [tauto | constructor].
    + intros x Hx [Ex|[]]; subst; contradiction.
Qed.

Lemma exec_op_wf : forall s now o, wf s -> wf (exec_op s now o).
Proof.
  intros s now o H.
  assert (Hdel : forall k, wf (Delete s k)).
  { intros k; unfold Delete; destruct (lookup k (items s)); auto.
    unfold wf, Keys_all; simpl; apply remove_key_nodup; exact H. }
  destruct o; simpl.
  - unfold Get; destruct (lookup key (items s)) eqn:E; simpl; auto.
    destruct (after now (Timeout c)), (policy s); simpl; auto.
    + unfold wf, Keys_all; simpl; apply remove_key_nodup; exact H.
    + unfold wf, Keys_all; simpl; apply keys_move_to_back_nodup; exact H.
  - apply SetWithTTL_wf; exact H.
  - apply SetWithTTL_wf; exact H.
  - apply Hdel.
  - unfold wf, Keys_all; simpl; constructor.
  - unfold wf, Keys_all; simpl; apply filter_keys_nodup; exact H.
  - unfold RunSpawned; destruct (nth_error (spawned s) j); auto.
    specialize (Hdel s0); unfold wf, Keys_all in *; simpl; exact Hdel.
Qed.

Lemma run_wf : forall ops s, wf s -> wf (run s ops).
Proof.
  induction ops as [|[t o] tl IH]; intros s H; simpl; auto using exec_op_wf.
Qed.

Lemma NewStore_wf : forall p n t, wf (NewStore p n t).
Proof. intros; unfold wf, Keys_all; simpl; constructor. Qed.

Lemma wrap64_small : forall z, - 2 ^ 63 <= z < 2 ^ 63 -> wrap64 z = z.
Proof.
  intros z Hz; unfold wrap64.
  rewrite Z.mod_small by lia. lia.
Qed.

Lemma duration_roundtrip : forall ttl, - 2 ^ 63 <= ttl * second < 2 ^ 63 ->
  ttl_duration (duration_seconds (ttl_duration ttl)) = ttl * second.
Proof.
  intros ttl H; unfold ttl_duration, duration_seconds.
  rewrite (wrap64_small (ttl * second) H).
  rewrite Z.quot_mul by (unfold second; lia).
  apply wrap64_small; exact H.
Qed.

Lemma lookup_SetWithTTL : forall s key v t now, wf s ->
  lookup key (items (SetWithTTL s key v t now)) = Some (mkCacheData v (now + ttl_duration t)).
Proof.
  intros s key v t now H; unfold wf, Keys_all, SetWithTTL in *.
  destruct (lookup key (items s)) eqn:E.
  - destruct (policy s); simpl.
    + apply lookup_move_to_back.
      * rewrite update_key_keys; exact H.
      * apply (lookup_update_key _ _ _ _ E).
    + apply (lookup_update_key _ _ _ _ E).
  - simpl. apply lookup_None_notin in E.
    rewrite lookup_app_notin; [simpl; rewrite String.eqb_refl; reflexivity|].
    destruct (_ <=? _); auto. intros Hin; apply E, in_remove_front; exact Hin.
Qed.

Lemma lookup_remove_key_nodup : forall k l,
  NoDup (map fst l) -> lookup k (remove_key k l) = None.
Proof.
  intros k l H; apply lookup_None_notin, remove_key_notin; exact H.
Qed.

(** * Claims about the stores *)

(** C1: on a store of capacity [N > 0], every sequence of
    Get/Set/SetWithTTL/Delete/Clear operations (with the background sweep
    and the spawned FIFO deletes interleaved in any way) leaves
    [Size() <= N]; and inserting a new key into a full store removes
    exactly one entry, the front of the order, before appending the new
    one. *)
Theorem size_le_capacity : forall p N ttl, 0 < N ->
  (forall ops, Size (run (NewStore p N ttl) ops) <= N) /\
  (forall s key v t now,
     maxSize s = N -> Size s = N -> lookup key (items s) = None ->
     exists victim rest,
       items s = victim :: rest /\
       items (SetWithTTL s key v t now)
         = rest ++ [(key, mkCacheData v (now + ttl_duration t))]).
Proof.
  intros p N ttl HN; split.
  - intros ops. apply (run_size ops (NewStore p N ttl)); simpl; [exact HN|].
    unfold Size; simpl; lia.
  - intros s key v t now Hm Hs E.
    unfold Size in Hs.
    assert (Hf : (maxSize s <=? Z.of_nat (length (items s))) = true)
      by (apply Z.leb_le; lia).
    unfold SetWithTTL; rewrite E, Hf.
    destruct (items s) as [|victim rest] eqn:Ei; simpl in Hs; [lia|].
    exists victim, rest; split; reflexivity.
Qed.

Lemma size_le_capacity_witness :
  0 < 2 /\ Size (run (NewStore LRU 2 60)
                   [(0, OSet "a" (AInt 1)); (1, OSet "b" (AInt 2));
                    (2, OSet "c" (AInt 3))]) <= 2.
Proof.
  split; [lia|].
  apply (proj1 (size_le_capacity LRU 2 60 ltac:(lia))).
Defined.

(** C2: on an LRU store of capacity 2, [Set(a,1); Set(b,2); Get(a);
    Set(c,3)] leaves exactly the keys a and c (b is evicted), provided the
    read of a happens before a's default TTL has elapsed. *)
Theorem lru_eviction_order : forall ttl t1 t2 t3 t4,
  - 2 ^ 63 <= ttl * second < 2 ^ 63 -> t3 <= t1 + ttl * second ->
  Keys_all (run (NewStore LRU 2 ttl)
              [(t1, OSet "a" (AInt 1)); (t2, OSet "b" (AInt 2));
               (t3, OGet "a"); (t4, OSet "c" (AInt 3))]) = ["a"; "c"]%string.
Proof.
  intros ttl t1 t2 t3 t4 Hr Ht.
  pose proof (duration_roundtrip ttl Hr) as Hd.
  unfold run, exec_op, Set_, NewStore.
  cbn - [ttl_duration duration_seconds after].
  rewrite Hd.
  replace (after t3 (t1 + ttl * second)) with false
    by (unfold after; symmetry; apply Z.ltb_ge; lia).
  reflexivity.
Qed.

Lemma lru_eviction_order_witness :
  Keys_all (run (NewStore LRU 2 60)
              [(0, OSet "a" (AInt 1)); (1, OSet "b" (AInt 2));
               (2, OGet "a"); (3, OSet "c" (AInt 3))]) = ["a"; "c"]%string.
Proof.
  apply (lru_eviction_order 60 0 1 2 3); unfold second; lia.
Defined.

(** C3: a FIFO read never changes the item list, and on a FIFO store of
    capacity 2, [Set(a,1); Set(b,2); Get(a); Set(c,3)] leaves exactly the
    keys b and c whatever the timing: also when the read found a expired
    and its spawned [Delete(a)] runs before or after [Set(c,3)]. *)
Theorem fifo_eviction_order :
  (forall m d l c sp key now,
     items (fst (Get (mkStore FIFO m d l c sp) key now)) = l) /\
  (forall ttl t1 t2 t3 t4 t5,
     let pre := [(t1, OSet "a" (AInt 1)); (t2, OSet "b" (AInt 2)); (t3, OGet "a")] in
     Keys_all (run (NewStore FIFO 2 ttl) (pre ++ [(t4, OSet "c" (AInt 3))]))
       = ["b"; "c"]%string /\
     Keys_all (run (NewStore FIFO 2 ttl)
                 (pre ++ [(t5, ORunSpawned 0); (t4, OSet "c" (AInt 3))]))
       = ["b"; "c"]%string /\
     Keys_all (run (NewStore FIFO 2 ttl)
                 (pre ++ [(t4, OSet "c" (AInt 3)); (t5, ORunSpawned 0)]))
       = ["b"; "c"]%string).
Proof.
  split.
  - intros m d l c sp key now; unfold Get; simpl.
    destruct (lookup key l); simpl; auto.
    destruct (after now (Timeout c0)); reflexivity.
  - intros ttl t1 t2 t3 t4 t5 pre; subst pre.
    unfold run, exec_op, Set_, NewStore.
    cbn - [ttl_duration duration_seconds after].
    destruct (after t3 _); repeat split; reflexivity.
Qed.

(** C4: a Get on a key whose entry has expired returns [found = false]
    (with no error channel at all) and removes the entry: at once on an
    LRU store; on a FIFO store through the spawned [Delete(key)], which
    when it runs leaves the key absent.  An entry written by
    [SetWithTTL(key, v, t)] at time [ts] is found by a Get at time [u]
    exactly when [u <= ts + t seconds] (for a TTL whose nanosecond
    duration fits in an int64). *)
Theorem get_expired_absent :
  (forall s key d now,
     wf s -> lookup key (items s) = Some d -> after now (Timeout d) = true ->
     snd (Get s key now) = (Value d, false) /\
     match policy s with
     | LRU => lookup key (items (fst (Get s key now))) = None
     | FIFO =>
         nth_error (spawned (fst (Get s key now))) (length (spawned s)) = Some key /\
         lookup key (items (RunSpawned (fst (Get s key now)) (length (spawned s)))) = None
     end) /\
  (forall s key v t ts u,
     wf s -> - 2 ^ 63 <= t * second < 2 ^ 63 ->
     snd (snd (Get (SetWithTTL s key v t ts) key u)) = (u <=? ts + t * second)).
Proof.
  split.
  - intros s key d now Hwf E Hexp. unfold wf, Keys_all in Hwf.
    unfold Get; rewrite E, Hexp.
    destruct (policy s); split; auto; simpl.
    + apply lookup_remove_key_nodup; exact Hwf.
    + rewrite nth_error_app2 by lia. rewrite Nat.sub_diag; split; [reflexivity|].
      unfold RunSpawned; simpl.
      rewrite nth_error_app2 by lia. rewrite Nat.sub_diag; simpl.
      unfold Delete; simpl; rewrite E; simpl.
      apply lookup_remove_key_nodup; exact Hwf.
  - intros s key v t ts u Hwf Hr.
    unfold Get; rewrite (lookup_SetWithTTL s key v t ts Hwf); simpl.
    unfold ttl_duration; rewrite (wrap64_small _ Hr).
    unfold after.
    destruct (Z.ltb_spec (ts + t * second) u), (Z.leb_spec u (ts + t * second));
      try lia; destruct (policy _); reflexivity.
Qed.

Lemma get_expired_absent_witness :
  let s := run (NewStore FIFO 2 60) [(0, OSetWithTTL "k" (AInt 7) 1)] in
  (wf s /\ lookup "k" (items s) = Some (mkCacheData (AInt 7) second) /\
   after (2 * second) second = true /\
   snd (Get s "k" (2 * second)) = (AInt 7, false)) /\
  (wf (NewStore LRU 2 60) /\ - 2 ^ 63 <= 5 * second < 2 ^ 63 /\
   snd (snd (Get (SetWithTTL (NewStore LRU 2 60) "k" (AInt 7) 5 0) "k" (5 * second + 1)))
     = false).
Proof.
  intros s. split.
  - assert (Hw : wf s) by (apply run_wf, NewStore_wf).
    assert (Hl : lookup "k" (items s) = Some (mkCacheData (AInt 7) second))
      by reflexivity.
    assert (Ha : after (2 * second) second = true) by reflexivity.
    split; [exact Hw|]. split; [exact Hl|]. split; [exact Ha|].
    exact (proj1 (proj1 get_expired_absent s "k"%string _ (2 * second) Hw Hl Ha)).
  - assert (Hw : wf (NewStore LRU 2 60)) by apply NewStore_wf.
    assert (Hr : - 2 ^ 63 <= 5 * second < 2 ^ 63) by (unfold second; lia).
    split; [exact Hw|]. split; [exact Hr|].
    rewrite (proj2 get_expired_absent _ "k"%string (AInt 7) 5 0 (5 * second + 1) Hw Hr).
    reflexivity.
Defined.

(** C7 (violated): [Stop()] is documented as safe to call several times,
    but it closes [stopChan] unconditionally, so on every store a second
    [Stop()] after a successful first one panics. *)
Theorem stop_twice_panics : forall s,
  match Stop s with
  | Ok s1 => Stop s1 = Panic "close of closed channel"
  | Panic _ => True
  end.
Proof.
  intros s; unfold Stop; destruct (stopClosed s); simpl; auto.
Qed.

(** C9 (as stated: an expired entry never yields a nil first component):
    refuted by an expired entry whose stored value is nil. *)
Lemma get_expired_value_counterexample :
  ~ (forall s key d now,
       lookup key (items s) = Some d -> after now (Timeout d) = true ->
       snd (Get s key now) <> (Nil, false)).
Proof.
  intros H.
  apply (H (run (NewStore LRU 2 60) [(0, OSetWithTTL "k" Nil 1)]) "k"%string
           (mkCacheData Nil second) (2 * second)); reflexivity.
Qed.

(** C9 (amended): for both policies, Get returns [(nil, false)] for a key
    with no entry, and the stored value itself with [found = false] for an
    expired entry (with [found = true] for a live one). *)
Theorem get_result_shape : forall s key now,
  snd (Get s key now) =
    match lookup key (items s) with
    | None => (Nil, false)
    | Some d => (Value d, negb (after now (Timeout d)))
    end.
Proof.
  intros s key now; unfold Get.
  destruct (lookup key (items s)); auto.
  destruct (after now (Timeout c)), (policy s); reflexivity.
Qed.

(** C10: [Size()] counts every held entry, the expired ones not yet
    removed included: it is the number of entries [GetAll()] returns plus
    the number of expired entries; and it can exceed both what [GetAll()]
    and what Get report. *)
Theorem size_counts_expired :
  (forall s now,
     Size s = Z.of_nat (length (GetAll s now))
              + Z.of_nat (length (filter (fun it => after now (Timeout (snd it))) (items s)))) /\
  (forall p,
     let s := run (NewStore p 2 60) [(0, OSetWithTTL "k" (AInt 1) 1)] in
     Size s = 1 /\ GetAll s (2 * second) = [] /\
     snd (snd (Get s "k" (2 * second))) = false).
Proof.
  split.
  - intros s now; unfold Size, GetAll. rewrite length_map.
    rewrite <- (filter_length (fun it : Item => negb (after now (Timeout (snd it))))
                 (items s)).
    rewrite Nat2Z.inj_add. f_equal. f_equal. f_equal.
    apply filter_ext; intros a; apply negb_involutive.
  - intros p; destruct p; repeat split; reflexivity.
Qed.

(** * Lemmas on the world *)

Lemma nth_error_replace_nth : forall {A} (l : list A) i j x y,
  nth_error l i = Some y ->
  nth_error (replace_nth l i x) j = if Nat.eqb i j then Some x else nth_error l j.
Proof.
  intros A l; induction l as [|a tl IH]; intros i j x y H.
  - destruct i; discriminate.
  - destruct i as [|i'], j as [|j']; simpl in *; auto.
    apply (IH i' j' x y H).
Qed.

Lemma length_replace_nth : forall {A} (l : list A) i x,
  length (replace_nth l i x) = length l.
Proof.
  intros A l; induction l as [|a tl IH]; intros [|i] x; simpl; auto.
Qed.

Lemma nth_replace_nth : forall {A} (l : list A) i j x d,
  (i < length l)%nat ->
  nth j (replace_nth l i x) d = if Nat.eqb i j then x else nth j l d.
Proof.
  intros A l; induction l as [|a tl IH]; intros i j x d H; simpl in H; [lia|].
  destruct i as [|i'], j as [|j']; simpl; auto.
  apply IH; lia.
Qed.

Lemma store_at_set_store : forall w si st sj,
  (si < length (stores w))%nat ->
  store_at (set_store w si st) sj = if Nat.eqb si sj then st else store_at w sj.
Proof.
  intros w si st sj H; unfold store_at, set_store; simpl.
  apply nth_replace_nth; exact H.
Qed.

Lemma assoc_In : forall {A B} (eqb : A -> A -> bool) k (l : list (A * B)) b,
  assoc eqb k l = Some b -> exists k', In (k', b) l.
Proof.
  intros A B eqb k l b; induction l as [|[k' b'] tl IH]; simpl; [discriminate|].
  destruct (eqb k' k); [intros E; injection E as <-; eauto|].
  intros E; destruct (IH E) as [k'' Hin]; eauto.
Qed.

Lemma Forall_firstn_skipn : forall {A} (P : A -> Prop) l j,
  Forall P l -> Forall P (firstn j l ++ skipn (S j) l).
Proof.
  intros A P l j H. rewrite <- (firstn_skipn j l) in H.
  apply Forall_app in H as [H1 H2]. apply Forall_app; split; auto.
  destruct (skipn j l) eqn:E.
  - rewrite skipn_all2; [constructor|].
    pose proof (firstn_skipn j l) as F.
    assert (length l <= j)%nat; [|lia].
    apply (f_equal (@length A)) in F. rewrite E, app_nil_r in F.
    rewrite length_firstn in F; lia.
  - rewrite <- (skipn_skipn 1 j), E; simpl. inversion H2; auto.
Qed.

Lemma lookup_remove_key_other : forall k k' l,
  k' <> k -> lookup k (remove_key k' l) = lookup k l.
Proof.
  intros k k' l Hne; induction l as [|[k'' d] tl IH]; simpl; auto.
  destruct (String.eqb_spec k'' k'); subst; simpl.
  - destruct (String.eqb_spec k' k); [congruence | reflexivity].
  - destruct (String.eqb k'' k); auto.
Qed.

Lemma Get_absent : forall st k now,
  lookup k (items st) = None -> Get st k now = (st, (Nil, false)).
Proof. intros st k now E; unfold Get; rewrite E; reflexivity. Qed.

Lemma Get_live : forall st k now d,
  wf st -> lookup k (items st) = Some d -> after now (Timeout d) = false ->
  snd (Get st k now) = (Value d, true) /\
  lookup k (items (fst (Get st k now))) = Some d /\
  wf (fst (Get st k now)) /\ spawned (fst (Get st k now)) = spawned st.
Proof.
  intros st k now d Hw E Ha; unfold Get; rewrite E, Ha.
  destruct (policy st); simpl; repeat split; auto.
  - apply lookup_move_to_back; auto.
  - unfold wf, Keys_all; simpl; apply keys_move_to_back_nodup; exact Hw.
Qed.

Lemma SetWithTTL_spawned : forall st k v t now,
  spawned (SetWithTTL st k v t now) = spawned st.
Proof.
  intros; unfold SetWithTTL; destruct (lookup k (items st)), (policy st); reflexivity.
Qed.

Lemma In_drop_nth : forall {A} (x : A) l j,
  In x (firstn j l ++ skipn (S j) l) -> In x l.
Proof.
  intros A x l; induction l as [|a tl IH]; intros [|j] H; simpl in *; auto.
  destruct H as [H|H]; auto. right; exact (IH j H).
Qed.

Lemma RunSpawned_other : forall st k j,
  ~ In k (spawned st) ->
  lookup k (items (RunSpawned st j)) = lookup k (items st) /\
  ~ In k (spawned (RunSpawned st j)) /\ (wf st -> wf (RunSpawned st j)).
Proof.
  intros st k j Hn; unfold RunSpawned.
  destruct (nth_error (spawned st) j) as [k'|] eqn:E; [|auto].
  assert (Hk : k' <> k).
  { intros ->; apply Hn, (nth_error_In _ _ E). }
  unfold Delete; destruct (lookup k' (items st)); simpl; repeat split.
  - apply lookup_remove_key_other; exact Hk.
  - intros Hin; apply Hn, (In_drop_nth _ _ _ Hin).
  - intros Hw; unfold wf, Keys_all in *; simpl; apply remove_key_nodup; exact Hw.
  - intros Hin; apply Hn, (In_drop_nth _ _ _ Hin).
  - intros Hw; exact Hw.
Qed.

Lemma run_world_ind : forall (P : World -> Prop),
  (forall w ev, P w -> P (step w ev)) ->
  forall sched w, P w -> P (run_world w sched).
Proof.
  intros P HP sched; unfold run_world; induction sched as [|ev tl IH]; intros w H;
    simpl; auto.
Qed.

Lemma set_pc_threads : forall w i c pc c0 pc0 j c' pc',
  nth_error (threads w) i = Some (c0, pc0) ->
  nth_error (threads (set_pc w i c pc)) j = Some (c', pc') ->
  (j = i /\ c' = c /\ pc' = pc) \/ nth_error (threads w) j = Some (c', pc').
Proof.
  intros w i c pc c0 pc0 j c' pc' Hi Hj; unfold set_pc in Hj; simpl in Hj.
  rewrite (nth_error_replace_nth _ _ _ _ _ Hi) in Hj.
  destruct (Nat.eqb_spec i j); [left | right; exact Hj].
  injection Hj as <- <-; auto.
Qed.

Lemma store_at_set_pc : forall w i c pc si,
  store_at (set_pc w i c pc) si = store_at w si.
Proof. reflexivity. Qed.

Lemma store_at_set_store_0 : forall w si st,
  (0 < length (stores w))%nat ->
  (si = 0%nat /\ store_at (set_store w si st) 0 = st) \/
  store_at (set_store w si st) 0 = store_at w 0.
Proof.
  intros w si st H; unfold store_at, set_store; simpl.
  destruct (stores w) as [|a tl]; simpl in H; [lia|].
  destruct si; simpl; auto.
Qed.

Lemma stores_set_store_self : forall w,
  (0 < length (stores w))%nat -> stores (set_store w 0 (store_at w 0)) = stores w.
Proof.
  intros w H; unfold set_store, store_at; simpl.
  destruct (stores w) as [|a tl]; simpl in H; [lia|reflexivity].
Qed.

Lemma length_stores_set_store : forall w si st,
  length (stores (set_store w si st)) = length (stores w).
Proof. intros; unfold set_store; simpl; apply length_replace_nth. Qed.

Section ErrorPath.
Variables (k : string) (x : any) (e : error) (now : Z) (I0 : list Item)
          (rd : list (string * Payload)) (up : bool).
Hypothesis HI0 : NoDup (map fst I0).
Hypothesis Hmiss : lookup k I0 = None \/
                   exists d, lookup k I0 = Some d /\ after now (Timeout d) = true.
Hypothesis Hrd : up = false \/ assoc String.eqb k rd = None.

Lemma err_Get : forall st u, now <= u -> err_st_ok k I0 st ->
  snd (snd (Get st k u)) = false /\ err_st_ok k I0 (fst (Get st k u)).
Proof.
  intros st u Hu [Hi Hs].
  destruct Hi as [Hi|Hi].
  - destruct Hmiss as [Hn|[d [Hd Ha]]].
    + rewrite Get_absent by (rewrite Hi; exact Hn). split; [reflexivity|split; auto].
    + assert (Ha' : after u (Timeout d) = true).
      { unfold after in *; apply Z.ltb_lt; apply Z.ltb_lt in Ha; lia. }
      unfold Get; rewrite Hi, Hd, Ha'.
      destruct (policy st); simpl; split; auto; split; auto.
      apply Forall_app; split; auto.
  - rewrite Get_absent by (rewrite Hi; apply lookup_remove_key_nodup; exact HI0).
    split; [reflexivity | split; [right|]; auto].
Qed.

Lemma err_RunSpawned : forall st j, err_st_ok k I0 st -> err_st_ok k I0 (RunSpawned st j).
Proof.
  intros st j [Hi Hs]; unfold RunSpawned.
  destruct (nth_error (spawned st) j) as [k'|] eqn:E; [|split; auto].
  assert (k' = k) as ->.
  { rewrite Forall_forall in Hs; symmetry; apply Hs, (nth_error_In _ _ E). }
  split; [| simpl; apply Forall_firstn_skipn; exact Hs].
  unfold Delete; simpl.
  destruct (lookup k (items st)) eqn:L; simpl; auto.
  destruct Hi as [Hi|Hi]; rewrite Hi in *; auto.
  rewrite lookup_remove_key_nodup in L by exact HI0; discriminate.
Qed.

Ltac side := first
  [ reflexivity | assumption | exact I | split; assumption
  | symmetry; apply stores_set_store_self; assumption
  | cbn [stores group_add log_fetch]; symmetry; apply stores_set_store_self; assumption ].

Lemma err_inv_step : forall w ev,
  err_inv k x e now I0 rd up w -> err_inv k x e now I0 rd up (step w ev).
Proof.
  intros w ev H. pose proof H as Hinv.
  destruct H as (Hlen & Hi & Hs & Hr & Hu & Hc & Hcalls & Ht).
  assert (Hst : err_st_ok k I0 (store_at w 0)) by (split; auto).
  (* a step that replaces store 0 by [st'] and thread [i] by [pc'] *)
  assert (Hgen : forall i c0 pc0 c pc' st' (w1 : World),
    nth_error (threads w) i = Some (c0, pc0) ->
    err_cfg k x e c -> err_pc e pc' -> err_st_ok k I0 st' ->
    stores w1 = stores (set_store w 0 st') -> redis w1 = redis w ->
    redis_up w1 = redis_up w -> clock w1 = clock w -> calls w1 = calls w ->
    threads w1 = threads w ->
    err_inv k x e now I0 rd up (set_pc w1 i c pc')).
  { intros i c0 pc0 c pc' st' w1 Hi0 Hcf Hpc Hok E1 E2 E3 E4 E5 E6.
    assert (Hs0 : store_at w1 0 = st').
    { unfold store_at; rewrite E1; unfold set_store; simpl.
      destruct (stores w) as [|a tl]; simpl in Hlen; [lia|reflexivity]. }
    destruct Hok as [Hok1 Hok2].
    unfold err_inv; rewrite !store_at_set_pc, Hs0; simpl.
    rewrite E1, E2, E3, E4, E5, length_stores_set_store.
    refine (conj Hlen (conj Hok1 (conj Hok2 (conj Hr (conj Hu (conj Hc (conj Hcalls _))))))).
    intros j c' pc'' Hj.
    rewrite E6, (nth_error_replace_nth _ _ _ _ _ Hi0) in Hj.
    destruct (Nat.eqb i j); [injection Hj as <- <-; auto | exact (Ht _ _ _ Hj)]. }
  destruct ev as [i|si j|d]; simpl.
  - unfold step_thread.
    destruct (nth_error (threads w) i) as [[c pc]|] eqn:Ei;
      [|exact Hinv].
    destruct (Ht _ _ _ Ei) as [Hcf Hpc].
    pose proof Hcf as Hcf0.
    destruct Hcf as (Hk & Hsi & Hf).
    rewrite Hk, Hsi.
    destruct pc; simpl in Hpc; try contradiction.
    + (* PStart *)
      destruct (err_Get _ _ Hc Hst) as [Hok Hst'].
      destruct (Get (store_at w 0) k (clock w)) as [st' [v ok]]; cbn [fst snd] in Hok, Hst'; subst ok.
      apply (Hgen i c PStart c PDo st' (set_store w 0 st')); side.
    + (* PDo *)
      destruct (assoc String.eqb k (sfGroup w)).
      * apply (Hgen i c PDo c (PWait n) (store_at w 0) w); side.
      * apply (Hgen i c PDo c (PRecheck (next_call w)) (store_at w 0) (group_add w k)); side.
    + (* PRecheck *)
      destruct (err_Get _ _ Hc Hst) as [Hok Hst'].
      destruct (Get (store_at w 0) k (clock w)) as [st' [v ok]]; cbn [fst snd] in Hok, Hst'; subst ok.
      apply (Hgen i c (PRecheck fid) c (PRemote fid) st' (set_store w 0 st')); side.
    + (* PRemote *)
      assert (Hm : redis_hit w k = None).
      { unfold redis_hit; rewrite Hr, Hu.
        destruct Hrd as [->| ->]; [reflexivity|destruct up; reflexivity]. }
      rewrite Hm.
      apply (Hgen i c (PRemote fid) c (PFetch fid) (store_at w 0) w); side.
    + (* PFetch *)
      rewrite Hf.
      apply (Hgen i c (PFetch fid) c (PFinish fid (Nil, Some e)) (store_at w 0)
               (log_fetch w i)); side.
    + (* PFinish *)
      subst r.
      unfold err_inv, group_finish, set_pc, store_at in *; simpl.
      refine (conj Hlen (conj Hi (conj Hs (conj Hr (conj Hu (conj Hc
                (conj (Forall_cons (fid, (Nil, Some e)) (eq_refl (Nil, Some e)) Hcalls) _))))))).
      intros j c' pc' Hj.
      rewrite (nth_error_replace_nth _ _ _ _ _ Ei) in Hj.
      destruct (Nat.eqb i j); [injection Hj as <- <-; simpl | exact (Ht _ _ _ Hj)].
      split; [exact Hcf0 | reflexivity].
    + (* PWait *)
      destruct (assoc Nat.eqb fid (calls w)) as [r|] eqn:Ea; [|exact Hinv].
      assert (Hr' : r = (Nil, Some e)).
      { destruct (assoc_In _ _ _ _ Ea) as [f Hin].
        rewrite Forall_forall in Hcalls; exact (Hcalls _ Hin). }
      apply (Hgen i c (PWait fid) c (PDone r) (store_at w 0) w); side.
    + (* PDone *)
      exact Hinv.
  - (* a spawned Delete runs *)
    assert (Hlen' : (0 < length (stores (set_store w si (RunSpawned (store_at w si) j))))%nat)
      by (rewrite length_stores_set_store; exact Hlen).
    unfold err_inv.
    destruct (store_at_set_store_0 w si (RunSpawned (store_at w si) j) Hlen)
      as [[-> E]|E]; rewrite E.
    + destruct (err_RunSpawned (store_at w 0) j Hst) as [H1 H2].
      exact (conj Hlen' (conj H1 (conj H2 (conj Hr (conj Hu (conj Hc (conj Hcalls Ht))))))).
    + exact (conj Hlen' (conj Hi (conj Hs (conj Hr (conj Hu (conj Hc (conj Hcalls Ht))))))).
  - (* time passes *)
    unfold err_inv, tick, store_at in *; simpl.
    refine (conj Hlen (conj Hi (conj Hs (conj Hr (conj Hu (conj _ (conj Hcalls Ht))))))); lia.
Qed.
End ErrorPath.

Lemma uniq_leaders_replace : forall ts i c pc c' pc',
  nth_error ts i = Some (c, pc) -> uniq_leaders ts ->
  (is_leader pc' = true -> is_leader pc = true \/
     forall j cj pj, nth_error ts j = Some (cj, pj) -> is_leader pj = false) ->
  uniq_leaders (replace_nth ts i (c', pc')).
Proof.
  intros ts i c pc c' pc' Hi U H a b ca cb pa pb Hab Ha Hb La.
  rewrite (nth_error_replace_nth _ _ _ _ _ Hi) in Ha.
  rewrite (nth_error_replace_nth _ _ _ _ _ Hi) in Hb.
  destruct (Nat.eqb_spec i a) as [<-|Hia], (Nat.eqb_spec i b) as [<-|Hib].
  - congruence.
  - injection Ha as <- <-.
    destruct (H La) as [Lp|All]; [exact (U i b c cb pc pb Hab Hi Hb Lp) | exact (All _ _ _ Hb)].
  - injection Hb as <- <-.
    destruct (is_leader pc') eqn:Lp'; [|reflexivity].
    destruct (H eq_refl) as [Lp|All].
    + rewrite (U a i ca c pa pc Hab Ha Hi La) in Lp; discriminate.
    + rewrite (All _ _ _ Ha) in La; discriminate.
  - exact (U a b ca cb pa pb Hab Ha Hb La).
Qed.

Lemma clock_step : forall w ev, clock w <= clock (step w ev).
Proof.
  intros w [i|si j|d]; simpl.
  - unfold step_thread.
    destruct (nth_error (threads w) i) as [[c pc]|]; [|lia].
    destruct pc; unfold redis_set;
      repeat match goal with |- context [match ?x with _ => _ end] => destruct x end;
      simpl; lia.
  - lia.
  - lia.
Qed.

Lemma clock_run : forall sched w, clock w <= clock (run_world w sched).
Proof.
  induction sched as [|ev tl IH]; intros w; simpl; [lia|].
  pose proof (clock_step w ev); pose proof (IH (step w ev)); unfold run_world in *; lia.
Qed.

Section CoalescedFetch.
Variables (k : string) (v : any) (m now : Z).

Lemma phase_view : forall w w',
  fetch_log w' = fetch_log w ->
  lookup k (items (store_at w' 0)) = lookup k (items (store_at w 0)) ->
  (fetch_log w = [] -> redis_hit w' k = redis_hit w k) ->
  (phaseA k w -> phaseA k w') /\ (phaseB k w -> phaseB k w') /\
  (phaseC k v (now + ttl_duration m) w -> phaseC k v (now + ttl_duration m) w').
Proof.
  intros w w' Ef El Er; unfold phaseA, phaseB, phaseC, has_live.
  rewrite Ef, El. split; [|split]; intros H; try tauto.
  destruct H as (H1 & H2 & H3); rewrite Er by exact H1; auto.
Qed.

Lemma once_pc_view : forall w w' pc,
  fetch_log w' = fetch_log w ->
  lookup k (items (store_at w' 0)) = lookup k (items (store_at w 0)) ->
  (fetch_log w = [] -> redis_hit w' k = redis_hit w k) ->
  sfGroup w' = sfGroup w -> calls w' = calls w ->
  once_pc k v (now + ttl_duration m) w pc -> once_pc k v (now + ttl_duration m) w' pc.
Proof.
  intros w w' pc Ef El Er Eg Ecl H.
  destruct (phase_view w w' Ef El Er) as (PA & PB & PC').
  destruct pc; simpl in *; rewrite ?Eg, ?Ecl; intuition.
Qed.

Lemma once_pc_set_pc : forall w i c pc p,
  once_pc k v (now + ttl_duration m) w p ->
  once_pc k v (now + ttl_duration m) (set_pc w i c pc) p.
Proof. intros w i c pc p H; exact H. Qed.

Lemma phases_exclusive : forall w,
  (phaseA k w -> phaseC k v (now + ttl_duration m) w -> False) /\
  (phaseB k w -> phaseC k v (now + ttl_duration m) w -> False) /\
  (phaseA k w -> phaseB k w -> False).
Proof.
  intros w; unfold phaseA, phaseB, phaseC, has_live.
  split; [|split].
  - intros (H1 & _) (H2 & _). rewrite H1 in H2; discriminate.
  - intros (_ & H1) (_ & d & H2 & _). congruence.
  - intros (H1 & _) (H2 & _). rewrite H1 in H2; discriminate.
Qed.
Lemma Get_view : forall st now', wf st ->
  lookup k (items st) = None \/ has_live k v now' st ->
  lookup k (items (fst (Get st k now'))) = lookup k (items st) /\
  wf (fst (Get st k now')) /\ spawned (fst (Get st k now')) = spawned st /\
  ((lookup k (items st) = None /\ snd (Get st k now') = (Nil, false)) \/
   (has_live k v now' st /\ snd (Get st k now') = (v, true))).
Proof.
  intros st now' Hw [Hn|(d & Hd & Hv & Ha)].
  - rewrite (Get_absent _ _ _ Hn); simpl.
    split; [reflexivity | split; [exact Hw | split; [reflexivity | left; auto]]].
  - destruct (Get_live st k now' d Hw Hd Ha) as (H1 & H2 & H3 & H4).
    rewrite H2, Hd.
    split; [reflexivity | split; [exact H3 | split; [exact H4 | right]]].
    split; [exists d; auto | rewrite H1, Hv; reflexivity].
Qed.

Lemma has_live_before : forall u u' st,
  u <= u' -> has_live k v u' st -> has_live k v u st.
Proof.
  intros u u' st Hle (d & Hd & Hv & Ha); exists d; split; [exact Hd | split; [exact Hv|]].
  unfold after in *; apply Z.ltb_ge; apply Z.ltb_ge in Ha; lia.
Qed.

Lemma live_phaseC : forall w u,
  has_live k v u (store_at w 0) ->
  (phaseA k w \/ phaseB k w \/ phaseC k v (now + ttl_duration m) w) -> phaseC k v (now + ttl_duration m) w.
Proof.
  intros w u (d & Hd & _) [(_ & Hn & _)|[(_ & Hn)|HC]]; auto; congruence.
Qed.

Lemma nonleader_transfer : forall w w1 pj,
  is_leader pj = false ->
  (forall fid, sfGroup w = [(k, fid)] ->
     sfGroup w1 = [(k, fid)] \/ assoc Nat.eqb fid (calls w1) <> None) ->
  (forall fid, assoc Nat.eqb fid (calls w) <> None -> assoc Nat.eqb fid (calls w1) <> None) ->
  (phaseC k v (now + ttl_duration m) w -> phaseC k v (now + ttl_duration m) w1) ->
  once_pc k v (now + ttl_duration m) w pj -> once_pc k v (now + ttl_duration m) w1 pj.
Proof.
  intros w w1 pj L HG Hc HC H; destruct pj; simpl in *; try discriminate; auto.
  - destruct H as [G|A]; [apply HG; exact G | right; apply Hc; exact A].
  - destruct H; split; auto.
Qed.

(** A step that changes thread [i] from [pc] to [pc'] on top of the
    world change [w] to [w1]. *)
Lemma once_gen : forall w w1 i c pc pc',
  once_inv k v m now w ->
  nth_error (threads w) i = Some (c, pc) ->
  threads w1 = threads w ->
  length (stores w1) = length (stores w) ->
  wf (store_at w1 0) -> ~ In k (spawned (store_at w1 0)) -> clock w1 = clock w ->
  (phaseA k w1 \/ phaseB k w1 \/ phaseC k v (now + ttl_duration m) w1) ->
  ((sfGroup w1 = [] /\ (phaseA k w1 \/ phaseC k v (now + ttl_duration m) w1) /\
    is_leader pc' = false /\
    forall j cj pj, j <> i -> nth_error (threads w) j = Some (cj, pj) -> is_leader pj = false)
   \/ exists fid, sfGroup w1 = [(k, fid)]) ->
  (is_leader pc' = true -> is_leader pc = true \/
     forall j cj pj, nth_error (threads w) j = Some (cj, pj) -> is_leader pj = false) ->
  (calls w1 <> [] -> phaseC k v (now + ttl_duration m) w1) ->
  Forall (fun p => snd p = (v, None)) (calls w1) ->
  once_pc k v (now + ttl_duration m) w1 pc' ->
  (forall j cj pj, j <> i -> nth_error (threads w) j = Some (cj, pj) ->
     once_pc k v (now + ttl_duration m) w pj -> once_pc k v (now + ttl_duration m) w1 pj) ->
  once_inv k v m now (set_pc w1 i c pc').
Proof.
  intros w w1 i c pc pc' Hinv Hi E1 E2 Hwf Hsp Ec Hph Hgrp Hlead Hcl Hfa Hpc' Hoth.
  destruct Hinv as (Hlen & _ & _ & Hc & _ & _ & Hu & _ & _ & Ht).
  unfold once_inv.
  refine (conj _ (conj Hwf (conj Hsp (conj _ (conj Hph (conj _ (conj _
            (conj Hcl (conj Hfa _))))))))).
  - unfold set_pc; simpl; rewrite E2; exact Hlen.
  - unfold set_pc; simpl; rewrite Ec; exact Hc.
  - destruct Hgrp as [(G & P & L & O)|G]; [left|right; exact G].
    refine (conj G (conj P _)).
    intros j cj pj Hj; unfold set_pc in Hj; simpl in Hj.
    rewrite E1, (nth_error_replace_nth _ _ _ _ _ Hi) in Hj.
    destruct (Nat.eqb_spec i j) as [<-|Hij];
      [injection Hj as <- <-; exact L | exact (O j cj pj (not_eq_sym Hij) Hj)].
  - unfold set_pc; simpl; rewrite E1.
    exact (uniq_leaders_replace _ _ _ _ _ _ Hi Hu Hlead).
  - intros j cj pj Hj; unfold set_pc in Hj; simpl in Hj.
    rewrite E1, (nth_error_replace_nth _ _ _ _ _ Hi) in Hj.
    destruct (Nat.eqb_spec i j) as [<-|Hij].
    + injection Hj as <- <-.
      split; [exact (proj1 (Ht _ _ _ Hi)) | apply once_pc_set_pc; exact Hpc'].
    + destruct (Ht _ _ _ Hj) as [Hcf Hp].
      split; [exact Hcf | apply once_pc_set_pc; exact (Hoth j cj pj (not_eq_sym Hij) Hj Hp)].
Qed.

(** The same when the step leaves every part of the world that the
    invariant looks at unchanged. *)
Lemma once_gen_view : forall w w1 i c pc pc',
  once_inv k v m now w ->
  nth_error (threads w) i = Some (c, pc) ->
  threads w1 = threads w ->
  length (stores w1) = length (stores w) ->
  wf (store_at w1 0) -> ~ In k (spawned (store_at w1 0)) -> clock w1 = clock w ->
  fetch_log w1 = fetch_log w ->
  lookup k (items (store_at w1 0)) = lookup k (items (store_at w 0)) ->
  (fetch_log w = [] -> redis_hit w1 k = redis_hit w k) ->
  sfGroup w1 = sfGroup w -> calls w1 = calls w ->
  is_leader pc' = is_leader pc ->
  once_pc k v (now + ttl_duration m) w1 pc' ->
  once_inv k v m now (set_pc w1 i c pc').
Proof.
  intros w w1 i c pc pc' Hinv Hi E1 E2 Hwf Hsp Ec Ef El Er Eg Ecl Hl Hpc'.
  pose proof Hinv as (Hlen & Hwf0 & Hsp0 & Hc & Hph & Hgrp & Hu & Hcl & Hfa & Ht).
  destruct (phase_view w w1 Ef El Er) as (PA & PB & PC).
  apply (once_gen w w1 i c pc pc'); auto.
  - intuition.
  - rewrite Eg. destruct Hgrp as [(G & P & O)|G]; [left|right; exact G].
    refine (conj G (conj _ (conj _ _))).
    + intuition.
    + rewrite Hl; exact (O _ _ _ Hi).
    + intros j cj pj _ Hj; exact (O _ _ _ Hj).
  - intros L; left; rewrite <- Hl; exact L.
  - rewrite Ecl; intros H; apply PC, Hcl, H.
  - rewrite Ecl; exact Hfa.
  - intros j cj pj _ _ Hp; apply (once_pc_view w w1); auto.
Qed.

(** A step that changes no thread. *)
Lemma once_view_world : forall w w1,
  once_inv k v m now w ->
  threads w1 = threads w ->
  length (stores w1) = length (stores w) ->
  wf (store_at w1 0) -> ~ In k (spawned (store_at w1 0)) -> clock w <= clock w1 ->
  fetch_log w1 = fetch_log w ->
  lookup k (items (store_at w1 0)) = lookup k (items (store_at w 0)) ->
  (fetch_log w = [] -> redis_hit w1 k = redis_hit w k) ->
  sfGroup w1 = sfGroup w -> calls w1 = calls w ->
  once_inv k v m now w1.
Proof.
  intros w w1 Hinv E1 E2 Hwf Hsp Ec Ef El Er Eg Ecl.
  destruct Hinv as (Hlen & _ & _ & Hc & Hph & Hgrp & Hu & Hcl & Hfa & Ht).
  destruct (phase_view w w1 Ef El Er) as (PA & PB & PC).
  unfold once_inv.
  refine (conj _ (conj Hwf (conj Hsp (conj _ (conj _ (conj _ (conj _
            (conj _ (conj _ _))))))))).
  - rewrite E2; exact Hlen.
  - lia.
  - intuition.
  - rewrite Eg, E1. destruct Hgrp as [(G & P & O)|G]; [left; intuition | right; exact G].
  - rewrite E1; exact Hu.
  - rewrite Ecl; intros H; apply PC, Hcl, H.
  - rewrite Ecl; exact Hfa.
  - intros j cj pj Hj; rewrite E1 in Hj; destruct (Ht _ _ _ Hj) as [Hcf Hp].
    split; [exact Hcf | apply (once_pc_view w w1); auto].
Qed.
Lemma once_inv_step : forall w ev,
  once_inv k v m now w -> clock w <= (now + ttl_duration m) -> once_inv k v m now (step w ev).
Proof.
  intros w ev H Hle. pose proof H as Hinv.
  destruct H as (Hlen & Hwf & Hsp & Hc & Hph & Hgrp & Hu & Hcl & Hfa & Ht).
  assert (Hs0 : forall st', store_at (set_store w 0 st') 0 = st')
    by (intros st'; rewrite store_at_set_store by exact Hlen; reflexivity).
  assert (Hview : lookup k (items (store_at w 0)) = None \/
                  has_live k v (clock w) (store_at w 0)).
  { destruct Hph as [(_ & Hn & _)|[(_ & Hn)|(_ & HL)]]; auto.
    right; exact (has_live_before _ _ _ Hle HL). }
  destruct ev as [i|si j|d]; simpl.
  - unfold step_thread.
    destruct (nth_error (threads w) i) as [[c pc]|] eqn:Ei; [|exact Hinv].
    destruct (Ht _ _ _ Ei) as [Hcf Hpc].
    destruct Hcf as (Hk & Hsi & Hf & Hmt).
    rewrite Hk, Hsi.
    destruct pc; simpl in Hpc.
    + (* PStart *)
      destruct (Get_view (store_at w 0) (clock w) Hwf Hview) as (L1 & W1 & S1 & R).
      destruct (Get (store_at w 0) k (clock w)) as [st' [x ok]]; cbn [fst snd] in *.
      assert (HC : has_live k v (clock w) (store_at w 0) ->
                   phaseC k v (now + ttl_duration m) (set_store w 0 st')).
      { intros HL. destruct (live_phaseC w (clock w)) as [F1 (d & Hd & Hv & Ha)];
          [exact HL | exact Hph |].
        split; [exact F1|]. exists d; rewrite Hs0, L1; auto. }
      destruct R as [(Ln & Er)|(Hl & Er)]; injection Er as -> ->.
      * refine (once_gen_view w (set_store w 0 st') i c PStart PDo Hinv Ei eq_refl _ _ _ eq_refl eq_refl
                  _ _ eq_refl eq_refl eq_refl I);
          rewrite ?Hs0, ?S1, ?length_stores_set_store; auto.
      * refine (once_gen_view w (set_store w 0 st') i c PStart (PDone (v, None)) Hinv Ei eq_refl _ _ _ eq_refl
                  eq_refl _ _ eq_refl eq_refl eq_refl (conj eq_refl (HC Hl)));
          rewrite ?Hs0, ?S1, ?length_stores_set_store; auto.
    + (* PDo *)
      destruct (assoc String.eqb k (sfGroup w)) as [fid|] eqn:Ea.
      * refine (once_gen_view w _ i c PDo (PWait fid) Hinv Ei eq_refl eq_refl Hwf Hsp eq_refl
                  eq_refl eq_refl (fun _ => eq_refl) eq_refl eq_refl eq_refl _).
        left. destruct Hgrp as [(G & _)|(f & G)]; rewrite G in *; simpl in Ea.
        -- discriminate.
        -- rewrite String.eqb_refl in Ea; injection Ea as ->; reflexivity.
      * assert (G0 : sfGroup w = [] /\ (phaseA k w \/ phaseC k v (now + ttl_duration m) w) /\
                     forall i c pc, nth_error (threads w) i = Some (c, pc) -> is_leader pc = false).
        { destruct Hgrp as [G|(f & G)]; [exact G|].
          rewrite G in Ea; simpl in Ea; rewrite String.eqb_refl in Ea; discriminate. }
        destruct G0 as (G & P & O).
        apply (once_gen w (group_add w k) i c PDo (PRecheck (next_call w)) Hinv Ei
                 eq_refl eq_refl Hwf Hsp eq_refl Hph).
        -- right; exists (next_call w); simpl; rewrite G; reflexivity.
        -- intros _; right; exact O.
        -- exact Hcl.
        -- exact Hfa.
        -- split; [simpl; rewrite G; reflexivity | exact P].
        -- intros j cj pj _ Hj Hp.
           apply (nonleader_transfer w (group_add w k)); [exact (O _ _ _ Hj) | | | |exact Hp].
           ++ intros f Gf; rewrite G in Gf; discriminate.
           ++ intros f Hf'; exact Hf'.
           ++ intros HC; exact HC.
    + (* PRecheck *)
      destruct Hpc as [G PAC].
      destruct (Get_view (store_at w 0) (clock w) Hwf Hview) as (L1 & W1 & S1 & R).
      destruct (Get (store_at w 0) k (clock w)) as [st' [x ok]]; cbn [fst snd] in *.
      destruct R as [(Ln & Er)|(Hl & Er)]; injection Er as -> ->.
      * assert (PA : phaseA k w).
        { destruct PAC as [PA|(_ & d & Hd & _)]; [exact PA | congruence]. }
        refine (once_gen_view w (set_store w 0 st') i c (PRecheck fid) (PRemote fid) Hinv Ei eq_refl _ _ _
                  eq_refl eq_refl _ _ eq_refl eq_refl eq_refl _);
          rewrite ?Hs0, ?S1, ?length_stores_set_store; auto.
        split; [exact G|].
        destruct PA as (P1 & P2 & P3); split; [exact P1 | rewrite Hs0, L1; auto].
      * refine (once_gen_view w (set_store w 0 st') i c (PRecheck fid) (PFinish fid (v, None)) Hinv Ei eq_refl
                  _ _ _ eq_refl eq_refl _ _ eq_refl eq_refl eq_refl _);
          rewrite ?Hs0, ?S1, ?length_stores_set_store; auto.
        refine (conj G (conj eq_refl _)).
        destruct (live_phaseC w (clock w)) as [F1 (d & Hd & Hv & Ha)];
          [exact Hl | exact Hph |].
        split; [exact F1|]. exists d; rewrite Hs0, L1; auto.
    + (* PRemote *)
      destruct Hpc as [G PA].
      rewrite (proj2 (proj2 PA)).
      exact (once_gen_view w _ i c (PRemote fid) (PFetch fid) Hinv Ei eq_refl eq_refl Hwf Hsp
               eq_refl eq_refl eq_refl (fun _ => eq_refl) eq_refl eq_refl eq_refl (conj G PA)).
    + (* PRemoteSet *)
      contradiction.
    + (* PFetch *)
      destruct Hpc as [G (A1 & A2 & A3)].
      assert (Hcalls0 : calls w = []).
      { destruct (calls w) eqn:E0; [reflexivity|exfalso].
        destruct (Hcl ltac:(discriminate)) as [F _]; rewrite A1 in F; discriminate. }
      rewrite Hf.
      apply (once_gen w (log_fetch w i) i c (PFetch fid) (PMemSet fid v) Hinv Ei
               eq_refl eq_refl Hwf Hsp eq_refl).
      -- right; left; split; [simpl; rewrite A1; reflexivity | exact A2].
      -- right; exists fid; exact G.
      -- intros _; left; reflexivity.
      -- intros Hn; exfalso; apply Hn; exact Hcalls0.
      -- exact Hfa.
      -- refine (conj G (conj eq_refl _)); split; [simpl; rewrite A1; reflexivity | exact A2].
      -- intros j cj pj Hij Hj Hp.
         apply (nonleader_transfer w (log_fetch w i));
           [exact (Hu i j c cj _ pj (not_eq_sym Hij) Ei Hj eq_refl) | | | | exact Hp].
         ++ intros f Gf; left; exact Gf.
         ++ intros f Hf'; exact Hf'.
         ++ intros (F & _); rewrite A1 in F; discriminate.
    + (* PMemSet *)
      destruct Hpc as [G [-> (B1 & B2)]].
      rewrite Hmt.
      set (st' := SetWithTTL (store_at w 0) k v m (clock w)).
      assert (HC1 : phaseC k v (now + ttl_duration m) (set_store w 0 st')).
      { split; [exact B1|]. rewrite Hs0.
        exists (mkCacheData v (clock w + ttl_duration m)).
        split; [apply lookup_SetWithTTL; exact Hwf | split; [reflexivity|]].
        unfold after; cbn [Timeout]; apply Z.ltb_ge; lia. }
      assert (Hcalls0 : calls w = []).
      { destruct (calls w) eqn:E0; [reflexivity|exfalso].
        destruct (Hcl ltac:(discriminate)) as [_ (d & Hd & _)]; congruence. }
      assert (Hoth : forall j cj pj, j <> i -> nth_error (threads w) j = Some (cj, pj) ->
                once_pc k v (now + ttl_duration m) w pj ->
                once_pc k v (now + ttl_duration m) (set_store w 0 st') pj).
      { intros j cj pj Hij Hj Hp.
        apply (nonleader_transfer w (set_store w 0 st'));
          [exact (Hu i j c cj _ pj (not_eq_sym Hij) Ei Hj eq_refl) | | | | exact Hp].
        - intros f Gf; left; exact Gf.
        - intros f Hf'; exact Hf'.
        - intros (_ & d & Hd & _); congruence. }
      assert (Hw' : wf (store_at (set_store w 0 st') 0))
        by (rewrite Hs0; apply SetWithTTL_wf; exact Hwf).
      assert (Hs' : ~ In k (spawned (store_at (set_store w 0 st') 0)))
        by (rewrite Hs0; unfold st'; rewrite SetWithTTL_spawned; exact Hsp).
      assert (Hl' : length (stores (set_store w 0 st')) = length (stores w))
        by apply length_stores_set_store.
      destruct (c_sync c).
      * apply (once_gen w (set_store w 0 st') i c (PMemSet fid v) (PSync fid v) Hinv Ei
                 eq_refl Hl' Hw' Hs' eq_refl (or_intror (or_intror HC1))
                 (or_intror (ex_intro _ fid G)) (fun _ => or_introl eq_refl) (fun _ => HC1)
                 Hfa (conj G (conj eq_refl HC1)) Hoth).
      * apply (once_gen w (set_store w 0 st') i c (PMemSet fid v) (PFinish fid (v, None)) Hinv
                 Ei eq_refl Hl' Hw' Hs' eq_refl (or_intror (or_intror HC1))
                 (or_intror (ex_intro _ fid G)) (fun _ => or_introl eq_refl) (fun _ => HC1)
                 Hfa (conj G (conj eq_refl HC1)) Hoth).
    + (* PSync *)
      destruct Hpc as [G [-> HC]].
      unfold redis_set; destruct (redis_up w).
      * refine (once_gen_view w (mkWorld (stores w) ((k, PJson v) :: assoc_remove k (redis w))
                  true (sfGroup w) (calls w) (next_call w) (fetch_log w) (threads w) (clock w))
                  i c (PSync fid v) (PFinish fid (v, None)) Hinv Ei eq_refl
                  eq_refl Hwf Hsp eq_refl eq_refl eq_refl _ eq_refl eq_refl eq_refl
                  (conj G (conj eq_refl HC))).
        intros E; destruct HC as [F _]; rewrite E in F; discriminate.
      * exact (once_gen_view w _ i c (PSync fid v) (PFinish fid (v, None)) Hinv Ei eq_refl
                  eq_refl Hwf Hsp eq_refl eq_refl eq_refl (fun _ => eq_refl) eq_refl eq_refl
                  eq_refl (conj G (conj eq_refl HC))).
    + (* PFinish *)
      destruct Hpc as [G [-> HC]].
      assert (EG : sfGroup (group_finish w k fid (v, None)) = []).
      { unfold group_finish; cbn [sfGroup]; rewrite G; cbn [assoc assoc_remove].
        rewrite ?String.eqb_refl, ?Nat.eqb_refl; cbn [assoc_remove];
          rewrite ?String.eqb_refl; reflexivity. }
      apply (once_gen w (group_finish w k fid (v, None)) i c (PFinish fid (v, None))
               (PDone (v, None)) Hinv Ei eq_refl eq_refl Hwf Hsp eq_refl
               (or_intror (or_intror HC))).
      -- left; refine (conj EG (conj (or_intror HC) (conj eq_refl _))).
         intros j cj pj Hij Hj; exact (Hu i j c cj _ pj (not_eq_sym Hij) Ei Hj eq_refl).
      -- intros L; discriminate L.
      -- intros _; exact HC.
      -- constructor; [reflexivity | exact Hfa].
      -- exact (conj eq_refl HC).
      -- intros j cj pj Hij Hj Hp.
         apply (nonleader_transfer w (group_finish w k fid (v, None)));
           [exact (Hu i j c cj _ pj (not_eq_sym Hij) Ei Hj eq_refl) | | | | exact Hp].
         ++ intros f Gf; right; rewrite G in Gf; injection Gf as <-.
            simpl; rewrite Nat.eqb_refl; discriminate.
         ++ intros f Hf'; simpl; destruct (Nat.eqb fid f); [discriminate | exact Hf'].
         ++ intros H; exact H.
    + (* PWait *)
      destruct (assoc Nat.eqb fid (calls w)) as [r|] eqn:Ea; [|exact Hinv].
      destruct (assoc_In _ _ _ _ Ea) as [f Hin].
      assert (Hr : r = (v, None)) by (rewrite Forall_forall in Hfa; exact (Hfa _ Hin)).
      assert (HC : phaseC k v (now + ttl_duration m) w)
        by (apply Hcl; intros E; rewrite E in Hin; contradiction).
      subst r.
      exact (once_gen_view w _ i c (PWait fid) (PDone (v, None)) Hinv Ei eq_refl eq_refl Hwf
               Hsp eq_refl eq_refl eq_refl (fun _ => eq_refl) eq_refl eq_refl eq_refl
               (conj eq_refl HC)).
    + (* PDone *)
      exact Hinv.
  - (* a spawned Delete runs *)
    destruct (store_at_set_store_0 w si (RunSpawned (store_at w si) j) Hlen)
      as [[-> E]|E].
    + destruct (RunSpawned_other (store_at w 0) k j Hsp) as (L1 & S1 & W1).
      apply (once_view_world w); rewrite ?E; auto;
        [apply length_stores_set_store | cbn; lia].
    + apply (once_view_world w); rewrite ?E; auto;
        [apply length_stores_set_store | cbn; lia].
  - (* time passes *)
    refine (once_view_world w (tick w d) Hinv eq_refl eq_refl Hwf Hsp _ eq_refl eq_refl
              (fun _ => eq_refl) eq_refl eq_refl).
    unfold tick; simpl; lia.
Qed.

(** The invariant holds along a run that ends by time [now + ttl_duration m]. *)
Lemma once_inv_run : forall sched w,
  once_inv k v m now w -> clock (run_world w sched) <= (now + ttl_duration m) ->
  once_inv k v m now (run_world w sched).
Proof.
  induction sched as [|ev tl IH]; intros w H Hle; [exact H|].
  change (run_world w (ev :: tl)) with (run_world (step w ev) tl) in *.
  apply IH; [|exact Hle].
  apply once_inv_step; [exact H|].
  pose proof (clock_step w ev); pose proof (clock_run tl (step w ev)); lia.
Qed.
End CoalescedFetch.

Lemma err_inv_init : forall k x e now st0 rest rd up cs,
  spawned st0 = [] -> Forall (err_cfg k x e) cs ->
  err_inv k x e now (items st0) rd up (init_world (st0 :: rest) rd up cs now).
Proof.
  intros k x e now st0 rest rd up cs Hsp Hcs; unfold err_inv, init_world, store_at; simpl.
  rewrite Hsp.
  refine (conj _ (conj (or_introl eq_refl) (conj (Forall_nil _) (conj eq_refl
            (conj eq_refl (conj (Z.le_refl now) (conj (Forall_nil _) _))))))); [lia|].
  intros i c pc Hn. rewrite nth_error_map in Hn.
  destruct (nth_error cs i) as [c0|] eqn:E; simpl in Hn; [|discriminate].
  injection Hn as <- <-. split; [|exact I].
  rewrite Forall_forall in Hcs; exact (Hcs _ (nth_error_In _ _ E)).
Qed.

(** C6 (amended): when the fetch of [key] fails with [e] and neither
    tier holds a usable value (tier 1 has no live entry, tier 2 is down
    or lacks the key), then over every interleaving of the concurrent
    calls, of the delete goroutines spawned by FIFO Gets and of the
    passing of time, tier 2 is
    never written, tier 1 gains no entry (its only change is the removal
    of the expired entry for [key] by a Get), and every call that has
    returned returned the error [e] with a nil value. *)
Theorem fetch_error_propagates : forall k x e now st0 rest rd up cs,
  wf st0 ->
  (lookup k (items st0) = None \/
   exists d, lookup k (items st0) = Some d /\ after now (Timeout d) = true) ->
  spawned st0 = [] ->
  (up = false \/ assoc String.eqb k rd = None) ->
  Forall (err_cfg k x e) cs ->
  forall sched,
    let w := run_world (init_world (st0 :: rest) rd up cs now) sched in
    redis w = rd /\ redis_up w = up /\
    (items (store_at w 0) = items st0 \/ items (store_at w 0) = remove_key k (items st0)) /\
    (forall i c r, nth_error (threads w) i = Some (c, PDone r) -> r = (Nil, Some e)).
Proof.
  intros k x e now st0 rest rd up cs Hwf Hmiss Hsp Hrd Hcs sched w.
  assert (Hinv : err_inv k x e now (items st0) rd up w).
  { apply run_world_ind; [|apply err_inv_init; assumption].
    intros w0 ev; apply err_inv_step; assumption. }
  destruct Hinv as (_ & Hi & _ & Hr & Hu & _ & _ & Ht).
  refine (conj Hr (conj Hu (conj Hi _))).
  intros i c r Hn; exact (proj2 (Ht _ _ _ Hn)).
Qed.

Lemma fetch_error_propagates_witness :
  let st0 := run (NewStore LRU 10 60) [(0, OSetWithTTL "k" (AInt 5) 0)] in
  let c := mkCfg "k" 0 (Nil, Some "boom"%string) 60 300 false in
  let w := run_world (init_world [st0] [] true [c; c] 1)
             (map Thr [0; 0; 0; 0; 0; 0; 1; 1; 1; 1; 1; 1]%nat) in
  redis w = [] /\ redis_up w = true /\
  (items (store_at w 0) = items st0 \/ items (store_at w 0) = remove_key "k" (items st0)) /\
  (forall i c r, nth_error (threads w) i = Some (c, PDone r) -> r = (Nil, Some "boom"%string)).
Proof.
  intros st0 c.
  apply (fetch_error_propagates "k"%string Nil "boom"%string 1 st0 [] [] true [c; c]).
  - apply run_wf, NewStore_wf.
  - right; eexists; split; reflexivity.
  - reflexivity.
  - right; reflexivity.
  - repeat constructor.
Defined.

(** C6 (counterexample): a failing fetch does leave tier 1 changed: the
    caller's Get removes the expired entry of [key] from an LRU store
    before the fetch runs and the error is returned. *)
Lemma fetch_error_counterexample :
  let st0 := run (NewStore LRU 10 60) [(0, OSetWithTTL "k" (AInt 5) 0)] in
  let c := mkCfg "k" 0 (Nil, Some "boom"%string) 60 300 false in
  let w := run_world (init_world [st0] [] true [c] 1) (map Thr [0; 0; 0; 0; 0; 0]%nat) in
  nth_error (threads w) 0 = Some (c, PDone (Nil, Some "boom"%string)) /\
  store_at w 0 <> st0.
Proof.
  split; [reflexivity | vm_compute; discriminate].
Qed.

Lemma nth_error_init_threads : forall (cs : list Cfg) i c pc,
  nth_error (map (fun c => (c, PStart)) cs) i = Some (c, pc) -> pc = PStart /\ In c cs.
Proof.
  intros cs i c pc Hn; rewrite nth_error_map in Hn.
  destruct (nth_error cs i) as [c0|] eqn:E; simpl in Hn; [|discriminate].
  injection Hn as <- <-; split; [reflexivity | exact (nth_error_In _ _ E)].
Qed.

Lemma once_inv_init : forall k v m now st0 rest rd up cs,
  wf st0 -> lookup k (items st0) = None -> ~ In k (spawned st0) ->
  (up = false \/ assoc String.eqb k rd = None) ->
  Forall (once_cfg k v m) cs ->
  once_inv k v m now (init_world (st0 :: rest) rd up cs now).
Proof.
  intros k v m now st0 rest rd up cs Hwf Hn Hsp Hrd Hcs.
  assert (PA : phaseA k (init_world (st0 :: rest) rd up cs now)).
  { split; [reflexivity | split; [exact Hn|]].
    unfold redis_hit; simpl. destruct Hrd as [->| ->]; [reflexivity | destruct up; reflexivity]. }
  unfold once_inv.
  refine (conj _ (conj Hwf (conj Hsp (conj (Z.le_refl now) (conj (or_introl PA) (conj _ (conj _
            (conj _ (conj (Forall_nil _) _))))))))).
  - simpl; lia.
  - left; refine (conj eq_refl (conj (or_introl PA) _)).
    intros i c pc Hi; destruct (nth_error_init_threads _ _ _ _ Hi) as [-> _]; reflexivity.
  - intros i j ci cj pi pj _ Hi _ L.
    destruct (nth_error_init_threads _ _ _ _ Hi) as [-> _]; discriminate L.
  - intros H; contradiction H; reflexivity.
  - intros i c pc Hi; destruct (nth_error_init_threads _ _ _ _ Hi) as [-> Hin].
    split; [rewrite Forall_forall in Hcs; exact (Hcs _ Hin) | exact I].
Qed.

(** C5 (amended): let [key] be absent from tier 1 and from tier 2, let
    every one of the concurrent calls use the same store, the same fetch,
    which succeeds with value [v], and the same memTTL [m], and let the
    calls start at time [now] and the run end by [now + memTTL], so that
    a value written to tier 1 by one of them has not expired when another
    reads it. Then over every interleaving of the goroutines, of the
    spawned deletes and of the passing of time, the fetch executes at
    most once; and every call that has returned got [(v, nil)], at which
    point the fetch has executed exactly once. *)
Theorem coalesced_fetch_once : forall k v m now st0 rest rd up cs,
  wf st0 -> lookup k (items st0) = None -> ~ In k (spawned st0) ->
  (up = false \/ assoc String.eqb k rd = None) ->
  Forall (once_cfg k v m) cs ->
  forall sched,
    let w := run_world (init_world (st0 :: rest) rd up cs now) sched in
    clock w <= now + ttl_duration m ->
    (length (fetch_log w) <= 1)%nat /\
    (forall i c r, nth_error (threads w) i = Some (c, PDone r) ->
       r = (v, None) /\ length (fetch_log w) = 1%nat).
Proof.
  intros k v m now st0 rest rd up cs Hwf Hn Hsp Hrd Hcs sched w Hle.
  assert (Hinv : once_inv k v m now w)
    by (apply once_inv_run; [apply once_inv_init; assumption | exact Hle]).
  destruct Hinv as (_ & _ & _ & _ & Hph & _ & _ & _ & _ & Ht).
  split.
  - destruct Hph as [(F & _)|[(F & _)|(F & _)]]; rewrite F; auto.
  - intros i c r Hi; destruct (proj2 (Ht _ _ _ Hi)) as [Hr (F & _)]; auto.
Qed.

Lemma coalesced_fetch_once_witness :
  let c := mkCfg "k" 0 (AInt 7, None) 60 300 true in
  let w := run_world (init_world [NewStore LRU 10 60] [] true [c; c; c] 0)
             ([Thr 0; Thr 1; Tick 5; Thr 2; Thr 0; Thr 1; Thr 2; Thr 0; Tick 1000; Thr 1; Thr 2]
              ++ map Thr [0; 1; 2; 0; 0; 0; 0; 1; 2]%nat) in
  (length (fetch_log w) <= 1)%nat /\
  (forall i c r, nth_error (threads w) i = Some (c, PDone r) ->
     r = (AInt 7, None) /\ length (fetch_log w) = 1%nat).
Proof.
  intros c.
  apply (coalesced_fetch_once "k"%string (AInt 7) 60 0 (NewStore LRU 10 60) [] [] true [c; c; c]).
  - apply NewStore_wf.
  - reflexivity.
  - simpl; tauto.
  - right; reflexivity.
  - repeat constructor.
  - apply (proj1 (Z.leb_le _ _)); reflexivity.
Defined.

(** C5 (counterexample): for a key absent from tier 1 the fetch does not
    always execute exactly once. When it fails, a second call that enters
    [sfGroup.Do] after the first call has finished fetches again (two
    executions); when tier 2 holds the key, it never executes; and when
    the value written to tier 1 (here with memTTL 0) has expired by the
    time a second call reads it, 1 ns later, that call fetches again,
    while the same schedule with no time passing fetches once. *)
Lemma coalesced_fetch_counterexample :
  let c := mkCfg "k" 0 (Nil, Some "boom"%string) 60 300 false in
  let w := run_world (init_world [NewStore LRU 10 60] [] true [c; c] 0)
             (map Thr [0; 0; 0; 0; 0; 0; 1; 1; 1; 1; 1; 1]%nat) in
  let c1 := mkCfg "k" 0 (AInt 1, None) 60 300 false in
  let w1 := run_world (init_world [NewStore LRU 10 60] [("k"%string, PJson (AInt 3))] true [c1] 0)
              (map Thr [0; 0; 0; 0; 0; 0]%nat) in
  let c2 := mkCfg "k" 0 (AInt 7, None) 0 300 false in
  let w0 := init_world [NewStore LRU 10 60] [] true [c2; c2] 0 in
  let w2 := run_world w0 (map Thr [0; 0; 0; 0; 0; 0; 0]%nat ++ [Tick 1]
                          ++ map Thr [1; 1; 1; 1; 1; 1; 1]%nat) in
  let w3 := run_world w0 (map Thr [0; 0; 0; 0; 0; 0; 0; 1; 1; 1; 1; 1; 1; 1]%nat) in
  forallb is_done (threads w) = true /\ length (fetch_log w) = 2%nat /\
  forallb is_done (threads w1) = true /\ fetch_log w1 = [] /\
  nth_error (threads w1) 0 = Some (c1, PDone (AInt 3, None)) /\
  forallb is_done (threads w2) = true /\ length (fetch_log w2) = 2%nat /\
  forallb is_done (threads w3) = true /\ length (fetch_log w3) = 1%nat.
Proof.
  vm_compute; repeat split.
Qed.

(** C8 (amended): the coalescer is the single process-wide [sfGroup],
    keyed by the key alone. A call for [key] that reaches [sfGroup.Do]
    while a call for [key] is registered in the group joins that call,
    whatever store and fetch it was given: the step touches neither
    store nor fetch. Once the joined call has published its result, the
    waiting call returns exactly that result. *)
Theorem global_group_joins :
  (forall w i c fid,
     nth_error (threads w) i = Some (c, PDo) ->
     assoc String.eqb (c_key c) (sfGroup w) = Some fid ->
     step w (Thr i) = set_pc w i c (PWait fid)) /\
  (forall w i c fid r,
     nth_error (threads w) i = Some (c, PWait fid) ->
     assoc Nat.eqb fid (calls w) = Some r ->
     step w (Thr i) = set_pc w i c (PDone r)).
Proof.
  split.
  - intros w i c fid Hi Ha; simpl; unfold step_thread; rewrite Hi, Ha; reflexivity.
  - intros w i c fid r Hi Ha; simpl; unfold step_thread; rewrite Hi, Ha; reflexivity.
Qed.

Lemma global_group_joins_witness :
  let c0 := mkCfg "k" 0 (AInt 1, None) 60 300 false in
  let c1 := mkCfg "k" 1 (AInt 2, None) 60 300 false in
  let w0 := init_world [NewStore LRU 10 60; NewStore LRU 10 60] [] true [c0; c1] 0 in
  let wa := run_world w0 (map Thr [0; 0; 1]%nat) in
  let wb := run_world w0 (map Thr [0; 0; 1; 1; 0; 0; 0; 0; 0]%nat) in
  step wa (Thr 1%nat) = set_pc wa 1%nat c1 (PWait 0%nat) /\
  step wb (Thr 1%nat) = set_pc wb 1%nat c1 (PDone (AInt 1, None)).
Proof.
  intros c0 c1 w0 wa wb. split.
  - apply (proj1 global_group_joins wa 1%nat c1 0%nat); reflexivity.
  - apply (proj2 global_group_joins wb 1%nat c1 0%nat (AInt 1, None)); reflexivity.
Defined.

(** C8 (counterexample): calls through two different stores with two
    different fetch functions are coalesced. The call on store 1, whose
    own fetch would return 2, returns the value 1 fetched for the call
    on store 0; its fetch never runs and its own store stays empty. *)
Lemma global_group_counterexample :
  let c0 := mkCfg "k" 0 (AInt 1, None) 60 300 false in
  let c1 := mkCfg "k" 1 (AInt 2, None) 60 300 false in
  let w := run_world (init_world [NewStore LRU 10 60; NewStore LRU 10 60] [] true [c0; c1] 0)
             (map Thr [0; 0; 1; 1; 0; 0; 0; 0; 0; 1]%nat) in
  nth_error (threads w) 1%nat = Some (c1, PDone (AInt 1, None)) /\
  fetch_log w = [0%nat] /\
  lookup "k" (items (store_at w 1%nat)) = None.
Proof.
  vm_compute; repeat split.
Qed.

(** ** Further properties of the stores *)

Lemma lookup_In_nodup : forall k d l,
  NoDup (map fst l) -> (lookup k l = Some d <-> In (k, d) l).
Proof.
  intros k d l; induction l as [|[k' d'] tl IH]; simpl; intros H.
  - split; [discriminate | tauto].
  - inversion H as [|? ? Hn Hnd]; subst.
    destruct (String.eqb_spec k' k) as [<-|Hne].
    + split.
      * intros E; injection E as ->; left; reflexivity.
      * intros [E|Hin]; [injection E as ->; reflexivity|].
        exfalso; apply Hn; exact (in_map fst _ _ Hin).
    + rewrite IH by exact Hnd.
      split; [intros Hin; right; exact Hin|].
      intros [E|Hin]; [injection E as E1 _; congruence | exact Hin].
Qed.

Lemma Get_found : forall s k now,
  snd (snd (Get s k now)) =
  match lookup k (items s) with None => false | Some d => negb (after now (Timeout d)) end.
Proof.
  intros s k now; unfold Get.
  destruct (lookup k (items s)) as [d|]; [|reflexivity].
  destruct (after now (Timeout d)), (policy s); reflexivity.
Qed.

Lemma in_keys_live : forall k (l : list Item) now,
  In k (map fst (filter (fun it => negb (after now (Timeout (snd it)))) l)) <->
  exists d, In (k, d) l /\ after now (Timeout d) = false.
Proof.
  intros k l now; rewrite in_map_iff; split.
  - intros [[k' d] [E Hin]]; simpl in E; subst k'.
    apply filter_In in Hin as [Hin Hf]; exists d; split; [exact Hin|].
    simpl in Hf; destruct (after now (Timeout d)); [discriminate | reflexivity].
  - intros [d [Hin Ha]]; exists (k, d); split; [reflexivity|].
    apply filter_In; split; [exact Hin | simpl; rewrite Ha; reflexivity].
Qed.

Lemma combine_map : forall {A B C} (f : A -> B) (g : A -> C) l,
  combine (map f l) (map g l) = map (fun x => (f x, g x)) l.
Proof. intros A B C f g l; induction l as [|a tl IH]; simpl; congruence. Qed.

Lemma expired_later : forall now u t, now <= u -> after now t = true -> after u t = true.
Proof.
  unfold after; intros now u t Hle H; apply Z.ltb_lt in H; apply Z.ltb_lt; lia.
Qed.

Lemma filter_live_twice : forall now u l, now <= u ->
  filter (fun it : Item => negb (after u (Timeout (snd it))))
    (filter (fun it : Item => negb (after now (Timeout (snd it)))) l) =
  filter (fun it : Item => negb (after u (Timeout (snd it)))) l.
Proof.
  intros now u l Hle; induction l as [|it tl IH]; simpl; [reflexivity|].
  destruct (after now (Timeout (snd it))) eqn:E1; simpl.
  - rewrite (expired_later now u _ Hle E1); simpl; exact IH.
  - destruct (negb (after u (Timeout (snd it)))); [f_equal|]; exact IH.
Qed.

Lemma lookup_filter_nodup : forall (f : Item -> bool) k l,
  NoDup (map fst l) ->
  lookup k (filter f l) =
  match lookup k l with Some d => if f (k, d) then Some d else None | None => None end.
Proof.
  intros f k l; induction l as [|[k' d'] tl IH]; simpl; intros H; [reflexivity|].
  inversion H as [|? ? Hn Hnd]; subst.
  destruct (f (k', d')) eqn:F; simpl; destruct (String.eqb_spec k' k) as [<-|Hne].
  - rewrite F; reflexivity.
  - exact (IH Hnd).
  - rewrite F, IH by exact Hnd.
    rewrite (proj2 (lookup_None_notin k' tl) Hn); reflexivity.
  - exact (IH Hnd).
Qed.

Lemma filter_neq_notin : forall k (l : list string),
  ~ In k l -> filter (fun x => negb (String.eqb x k)) l = l.
Proof.
  intros k l; induction l as [|a tl IH]; simpl; intros H; [reflexivity|].
  destruct (String.eqb_spec a k) as [->|Hne]; [exfalso; auto | simpl; f_equal; auto].
Qed.

Lemma map_fst_remove_key : forall k l,
  NoDup (map fst l) ->
  map fst (remove_key k l) = filter (fun x => negb (String.eqb x k)) (map fst l).
Proof.
  intros k l; induction l as [|[k' d] tl IH]; simpl; intros H; [reflexivity|].
  inversion H as [|? ? Hn Hnd]; subst.
  destruct (String.eqb_spec k' k) as [->|Hne]; simpl.
  - symmetry; apply filter_neq_notin; exact Hn.
  - f_equal; exact (IH Hnd).
Qed.

Lemma lookup_app : forall k l1 l2,
  lookup k (l1 ++ l2) = match lookup k l1 with Some d => Some d | None => lookup k l2 end.
Proof.
  intros k l1 l2; induction l1 as [|[k' d] tl IH]; simpl; [reflexivity|].
  destruct (String.eqb k' k); [reflexivity | exact IH].
Qed.

Lemma lookup_update_key_other : forall k k' d l,
  k' <> k -> lookup k' (update_key k d l) = lookup k' l.
Proof.
  intros k k' d l Hne; induction l as [|[k'' d'] tl IH]; simpl; [reflexivity|].
  destruct (String.eqb_spec k'' k) as [->|Hne']; simpl.
  - destruct (String.eqb_spec k k') as [E|_]; [congruence | reflexivity].
  - destruct (String.eqb k'' k'); [reflexivity | exact IH].
Qed.

Lemma exec_op_defaultTtl : forall s now o, defaultTtl (exec_op s now o) = defaultTtl s.
Proof.
  intros s now o; destruct o; simpl;
    unfold Get, Set_, SetWithTTL, RunSpawned, Clear, Sweep;
    repeat match goal with
           | |- context [match ?e with _ => _ end] => destruct e
           | |- context [if ?e then _ else _] => destruct e
           end; simpl; unfold Delete;
    repeat match goal with
           | |- context [match ?e with _ => _ end] => destruct e
           end; reflexivity.
Qed.

Lemma run_defaultTtl : forall ops s, defaultTtl (run s ops) = defaultTtl s.
Proof.
  induction ops as [|[t o] tl IH]; intros s; simpl; [reflexivity|].
  rewrite IH; apply exec_op_defaultTtl.
Qed.

(** Extra: [Keys()] lists exactly the keys on which [Get] reports found. *)
Theorem keys_iff_found : forall s k now,
  wf s -> (In k (Keys s now) <-> snd (snd (Get s k now)) = true).
Proof.
  intros s k now Hw; unfold Keys; rewrite in_keys_live, Get_found.
  destruct (lookup k (items s)) as [d|] eqn:E.
  - split.
    + intros [d' [Hin Ha]].
      apply (proj2 (lookup_In_nodup k d' (items s) Hw)) in Hin.
      rewrite E in Hin; injection Hin as ->; rewrite Ha; reflexivity.
    + intros H; exists d; split; [exact (proj1 (lookup_In_nodup k d _ Hw) E)|].
      destruct (after now (Timeout d)); [discriminate | reflexivity].
  - split; [|discriminate].
    intros [d' [Hin _]]; apply (proj2 (lookup_In_nodup k d' _ Hw)) in Hin; congruence.
Qed.

Lemma keys_iff_found_witness :
  let s := run (NewStore LRU 4 60) [(0, OSet "a" (AInt 1)); (0, OSetWithTTL "b" (AInt 2) 1)] in
  In "a"%string (Keys s (2 * second)) <-> snd (snd (Get s "a" (2 * second))) = true.
Proof. intros s; apply keys_iff_found; apply run_wf, NewStore_wf. Defined.

(** Extra: [Keys()] and [Values()] list the live entries in the same list
    order, pairing up to the [GetAll()] entries, and [Keys()] has no
    duplicates. *)
Theorem keys_values_getall : forall s now,
  combine (Keys s now) (Values s now) = GetAll s now /\
  length (Keys s now) = length (Values s now) /\
  (wf s -> NoDup (Keys s now)).
Proof.
  intros s now; split; [|split].
  - unfold Keys, Values, GetAll; rewrite combine_map; reflexivity.
  - unfold Keys, Values; rewrite !length_map; reflexivity.
  - intros H; apply filter_keys_nodup; exact H.
Qed.

(** Extra: [GetAll()] holds [(k, x)] exactly when [k] has a live entry
    with value [x]. *)
Theorem getall_live_entries : forall s now k x,
  wf s ->
  (In (k, x) (GetAll s now) <->
   exists d, lookup k (items s) = Some d /\ Value d = x /\ after now (Timeout d) = false).
Proof.
  intros s now k x Hw; unfold GetAll; rewrite in_map_iff; split.
  - intros [[k' d] [E Hin]]; simpl in E; injection E as -> <-.
    apply filter_In in Hin as [Hin Hf]; exists d.
    split; [exact (proj2 (lookup_In_nodup _ _ _ Hw) Hin) | split; [reflexivity|]].
    simpl in Hf; destruct (after now (Timeout d)); [discriminate | reflexivity].
  - intros [d [E [Hv Ha]]]; exists (k, d); split; [simpl; rewrite Hv; reflexivity|].
    apply filter_In; split; [exact (proj1 (lookup_In_nodup _ _ _ Hw) E) | simpl; rewrite Ha; reflexivity].
Qed.

Lemma getall_live_entries_witness :
  let s := run (NewStore FIFO 4 60) [(0, OSet "a" (AInt 1))] in
  In ("a"%string, AInt 1) (GetAll s 5) <->
  exists d, lookup "a" (items s) = Some d /\ Value d = AInt 1 /\ after 5 (Timeout d) = false.
Proof. intros s; apply getall_live_entries; apply run_wf, NewStore_wf. Defined.

(** Extra: on an LRU store [Touch(key)] has exactly the effect of
    [Get(key)] (refresh a live entry to the back, remove an expired one)
    and returns Get's found flag. *)
Theorem touch_is_get : forall s k now,
  policy s = LRU -> Touch s k now = (fst (Get s k now), snd (snd (Get s k now))).
Proof.
  intros s k now Hp; unfold Touch, Get; rewrite Hp.
  destruct (lookup k (items s)) as [d|]; [destruct (after now (Timeout d))|]; reflexivity.
Qed.

Lemma touch_is_get_witness :
  let s := run (NewStore LRU 4 60) [(0, OSet "a" (AInt 1))] in
  Touch s "a" 1 = (fst (Get s "a" 1), snd (snd (Get s "a" 1))).
Proof. intros s; apply touch_is_get; reflexivity. Defined.

(** Extra: after [SetWithTTL(key, value, ttl)] with a non-negative TTL on
    an LRU store, [GetMRU()] at the same instant returns
    [(key, value, true)], whether the key was new or refreshed. *)
Theorem getmru_after_set : forall s k v t now,
  policy s = LRU -> 0 <= t * second < 2 ^ 63 ->
  GetMRU (SetWithTTL s k v t now) now = (k, v, true).
Proof.
  intros s k v t now Hp Ht.
  assert (Hend : exists l, items (SetWithTTL s k v t now) =
                           l ++ [(k, mkCacheData v (now + ttl_duration t))]).
  { unfold SetWithTTL; destruct (lookup k (items s)) as [d0|] eqn:E.
    - rewrite Hp; simpl; unfold move_to_back.
      rewrite (lookup_update_key k _ _ d0 E); eexists; reflexivity.
    - eexists; reflexivity. }
  destruct Hend as [l Hl]; unfold GetMRU; rewrite Hl, rev_app_distr; simpl.
  unfold after, ttl_duration; rewrite wrap64_small by lia.
  replace (now + t * second <? now) with false by (symmetry; apply Z.ltb_ge; lia).
  reflexivity.
Qed.

Lemma getmru_after_set_witness :
  let s := run (NewStore LRU 2 60) [(0, OSet "a" (AInt 1)); (0, OSet "b" (AInt 2))] in
  GetMRU (SetWithTTL s "a" (AInt 3) 60 1) 1 = ("a"%string, AInt 3, true).
Proof.
  intros s; apply getmru_after_set; [reflexivity|].
  split; [apply (proj1 (Z.leb_le _ _)) | apply (proj1 (Z.ltb_lt _ _))]; reflexivity.
Defined.

(** Extra: the entry [GetLRU()] reports is the one evicted by the next
    insertion of a new key into a full LRU store. *)
Theorem getlru_next_victim : forall s k x now k' v t now',
  wf s -> policy s = LRU -> GetLRU s now = (k, x, true) ->
  lookup k' (items s) = None -> maxSize s <= Size s ->
  lookup k (items (SetWithTTL s k' v t now')) = None.
Proof.
  intros s k x now k' v t now' Hw Hp Hg Hn Hs.
  unfold SetWithTTL; rewrite Hn.
  assert (Hle : (maxSize s <=? Z.of_nat (length (items s))) = true)
    by (apply Z.leb_le; exact Hs).
  rewrite Hle; simpl.
  unfold GetLRU in Hg; unfold wf, Keys_all in Hw.
  destruct (items s) as [|[k0 d] tl]; [discriminate|].
  destruct (after now (Timeout d)); [discriminate|].
  injection Hg as <- _.
  simpl in Hw; inversion Hw as [|? ? Hni _]; subst.
  simpl; rewrite lookup_app_notin by exact Hni; simpl.
  simpl in Hn; destruct (String.eqb k0 k') eqn:E; [discriminate|].
  rewrite String.eqb_sym, E; reflexivity.
Qed.

Lemma getlru_next_victim_witness :
  let s := run (NewStore LRU 2 60) [(0, OSet "a" (AInt 1)); (0, OSet "b" (AInt 2))] in
  lookup "a" (items (SetWithTTL s "c" (AInt 3) 60 1)) = None.
Proof.
  intros s; apply (getlru_next_victim s "a" (AInt 1) 1).
  - apply run_wf, NewStore_wf.
  - reflexivity.
  - reflexivity.
  - reflexivity.
  - apply (proj1 (Z.leb_le _ _)); reflexivity.
Defined.

(** Extra: a tick of the cleanup goroutine at time [now] changes nothing
    that [GetAll()], [Keys()] or Get's found flag report at [now] or
    later; afterwards [Size()] counts only the live entries. *)
Theorem sweep_invisible : forall s now u,
  now <= u ->
  GetAll (Sweep s now) u = GetAll s u /\
  Keys (Sweep s now) u = Keys s u /\
  (wf s -> forall k, snd (snd (Get (Sweep s now) k u)) = snd (snd (Get s k u))) /\
  Size (Sweep s now) = Z.of_nat (length (GetAll s now)).
Proof.
  intros s now u Hle; split; [|split; [|split]].
  - unfold GetAll, Sweep; simpl; rewrite filter_live_twice by exact Hle; reflexivity.
  - unfold Keys, Sweep; simpl; rewrite filter_live_twice by exact Hle; reflexivity.
  - intros Hw k; rewrite !Get_found; unfold Sweep; simpl.
    rewrite lookup_filter_nodup by exact Hw.
    destruct (lookup k (items s)) as [d|]; simpl; [|reflexivity].
    destruct (after now (Timeout d)) eqn:E; simpl; [|reflexivity].
    rewrite (expired_later now u _ Hle E); reflexivity.
  - unfold Size, GetAll, Sweep; simpl; rewrite length_map; reflexivity.
Qed.

Lemma sweep_invisible_witness :
  let s := run (NewStore FIFO 4 60) [(0, OSetWithTTL "a" (AInt 1) 1); (0, OSet "b" (AInt 2))] in
  GetAll (Sweep s (2 * second)) (3 * second) = GetAll s (3 * second) /\
  Keys (Sweep s (2 * second)) (3 * second) = Keys s (3 * second) /\
  (wf s -> forall k, snd (snd (Get (Sweep s (2 * second)) k (3 * second))) =
                     snd (snd (Get s k (3 * second)))) /\
  Size (Sweep s (2 * second)) = Z.of_nat (length (GetAll s (2 * second))).
Proof.
  intros s; apply sweep_invisible; apply (proj1 (Z.leb_le _ _)); reflexivity.
Defined.

(** Extra: [Delete(key)] removes the entry of [key], leaves every other
    key's entry as it was, keeps the store well formed and shrinks
    [Size()] by one exactly when the key was present. *)
Theorem delete_removes_only_key : forall s k,
  wf s ->
  lookup k (items (Delete s k)) = None /\
  (forall k', k' <> k -> lookup k' (items (Delete s k)) = lookup k' (items s)) /\
  wf (Delete s k) /\
  Size (Delete s k) = match lookup k (items s) with Some _ => Size s - 1 | None => Size s end.
Proof.
  intros s k Hw; unfold Delete, wf, Keys_all, Size in *.
  destruct (lookup k (items s)) as [d|] eqn:E; simpl.
  - split; [apply lookup_remove_key_nodup; exact Hw|].
    split; [intros k' Hne; apply lookup_remove_key_other; congruence|].
    split; [apply remove_key_nodup; exact Hw|].
    rewrite <- (remove_key_length _ _ _ E); lia.
  - auto.
Qed.

Lemma delete_removes_only_key_witness :
  let s := run (NewStore LRU 4 60) [(0, OSet "a" (AInt 1)); (0, OSet "b" (AInt 2))] in
  lookup "a" (items (Delete s "a")) = None /\
  (forall k', k' <> "a"%string -> lookup k' (items (Delete s "a")) = lookup k' (items s)) /\
  wf (Delete s "a") /\
  Size (Delete s "a") = match lookup "a" (items s) with Some _ => Size s - 1 | None => Size s end.
Proof. intros s; apply delete_removes_only_key; apply run_wf, NewStore_wf. Defined.

(** Extra: [SetWithTTL] on a key already present evicts nothing and keeps
    [Size()]; LRU moves the key to the back of the order, FIFO keeps
    its position. *)
Theorem set_existing_key : forall s k v t now d0,
  wf s -> lookup k (items s) = Some d0 ->
  Size (SetWithTTL s k v t now) = Size s /\
  Keys_all (SetWithTTL s k v t now) =
    match policy s with
    | LRU => filter (fun x => negb (String.eqb x k)) (Keys_all s) ++ [k]
    | FIFO => Keys_all s
    end.
Proof.
  intros s k v t now d0 Hw E; unfold SetWithTTL, Size, Keys_all; rewrite E.
  destruct (policy s); simpl.
  - unfold move_to_back; rewrite (lookup_update_key k _ _ d0 E).
    assert (E' : lookup k (update_key k (mkCacheData v (now + ttl_duration t)) (items s)) =
                 Some (mkCacheData v (now + ttl_duration t)))
      by exact (lookup_update_key k _ _ d0 E).
    pose proof (remove_key_length _ _ _ E') as Hl.
    rewrite length_update_key in Hl.
    split.
    + rewrite length_app; simpl; lia.
    + rewrite map_app, map_fst_remove_key, update_key_keys; [reflexivity|].
      rewrite update_key_keys; exact Hw.
  - rewrite length_update_key, update_key_keys; split; reflexivity.
Qed.

Lemma set_existing_key_witness :
  let s := run (NewStore LRU 2 60) [(0, OSet "a" (AInt 1)); (0, OSet "b" (AInt 2))] in
  Size (SetWithTTL s "a" (AInt 3) 60 1) = Size s /\
  Keys_all (SetWithTTL s "a" (AInt 3) 60 1) =
    match policy s with
    | LRU => filter (fun x => negb (String.eqb x "a")) (Keys_all s) ++ ["a"%string]
    | FIFO => Keys_all s
    end.
Proof.
  intros s; apply (set_existing_key s "a" (AInt 3) 60 1 (mkCacheData (AInt 1) 60000000000)).
  - apply run_wf, NewStore_wf.
  - reflexivity.
Defined.

(** Extra: on a store made by [NewLRUCache]/[NewFIFOCache] with default
    TTL [ttl] seconds, after any operations, [Set(key, value)] at time
    [now] stores [value] with expiry [now + ttl] seconds. *)
Theorem set_uses_default_ttl : forall p n ttl ops k v now,
  - 2 ^ 63 <= ttl * second < 2 ^ 63 ->
  lookup k (items (Set_ (run (NewStore p n ttl) ops) k v now)) =
    Some (mkCacheData v (now + ttl * second)).
Proof.
  intros p n ttl ops k v now H; unfold Set_.
  rewrite lookup_SetWithTTL by (apply run_wf, NewStore_wf).
  rewrite run_defaultTtl; simpl; rewrite duration_roundtrip by exact H; reflexivity.
Qed.

Lemma set_uses_default_ttl_witness :
  lookup "k" (items (Set_ (run (NewStore FIFO 3 60) [(0, OSet "a" (AInt 1))]) "k" (AInt 2) 5)) =
    Some (mkCacheData (AInt 2) (5 + 60 * second)).
Proof.
  apply set_uses_default_ttl.
  split; [apply (proj1 (Z.leb_le _ _)) | apply (proj1 (Z.ltb_lt _ _))]; reflexivity.
Defined.

(** Extra: [SetWithTTL(key, ...)] leaves every other key's entry as it
    was, unless [key] is new and the store is full: then exactly the
    front entry is evicted and every other entry stays as it was. *)
Theorem set_preserves_other_keys : forall s k v t now k',
  wf s -> k' <> k ->
  ((lookup k (items s) <> None \/ Size s < maxSize s \/ hd_error (Keys_all s) <> Some k') ->
     lookup k' (items (SetWithTTL s k v t now)) = lookup k' (items s)) /\
  (lookup k (items s) = None -> maxSize s <= Size s -> hd_error (Keys_all s) = Some k' ->
     lookup k' (items (SetWithTTL s k v t now)) = None).
Proof.
  intros s k v t now k' Hw Hne.
  assert (Htail : lookup k' [(k, mkCacheData v (now + ttl_duration t))] = None)
    by (simpl; destruct (String.eqb_spec k k'); [congruence | reflexivity]).
  unfold SetWithTTL; destruct (lookup k (items s)) as [d0|] eqn:E.
  - split; [intros _ | intros F; discriminate F].
    destruct (policy s); simpl.
    + unfold move_to_back; rewrite (lookup_update_key k _ _ d0 E).
      rewrite lookup_app, lookup_remove_key_other by congruence.
      rewrite lookup_update_key_other by exact Hne.
      destruct (lookup k' (items s)); [reflexivity|]; simpl.
      destruct (String.eqb_spec k k'); [congruence | reflexivity].
    + apply lookup_update_key_other; exact Hne.
  - unfold Size, Keys_all in *; split.
    + intros Hc.
      destruct (maxSize s <=? Z.of_nat (length (items s))) eqn:Hf; simpl;
        rewrite lookup_app, ?Htail.
      * destruct Hc as [Hc|[Hc|Hc]]; [congruence| apply Z.leb_le in Hf; lia|].
        destruct (items s) as [|[k0 d] tl]; simpl in *; [reflexivity|].
        destruct (String.eqb_spec k0 k') as [<-|_]; [congruence|].
        destruct (lookup k' tl); reflexivity.
      * destruct (lookup k' (items s)); reflexivity.
    + intros _ Hf Hh.
      replace (maxSize s <=? Z.of_nat (length (items s))) with true
        by (symmetry; apply Z.leb_le; exact Hf).
      unfold with_items; cbn [items]; rewrite lookup_app, Htail.
      unfold wf, Keys_all in Hw.
      destruct (items s) as [|[k0 d] tl]; simpl in *; [discriminate|].
      injection Hh as ->.
      inversion Hw as [|? ? Hn _]; subst.
      rewrite (proj2 (lookup_None_notin k' tl) Hn); reflexivity.
Qed.

Lemma set_preserves_other_keys_witness :
  let s := run (NewStore LRU 2 60) [(0, OSet "a" (AInt 1)); (0, OSet "b" (AInt 2))] in
  ((lookup "c" (items s) <> None \/ Size s < maxSize s \/ hd_error (Keys_all s) <> Some "b"%string) ->
     lookup "b" (items (SetWithTTL s "c" (AInt 3) 60 1)) = lookup "b" (items s)) /\
  (lookup "c" (items s) = None -> maxSize s <= Size s -> hd_error (Keys_all s) = Some "b"%string ->
     lookup "b" (items (SetWithTTL s "c" (AInt 3) 60 1)) = None).
Proof.
  intros s; apply set_preserves_other_keys.
  - apply run_wf, NewStore_wf.
  - discriminate.
Defined.

(** Extra: an LRU [Get] of a live key returns its value with found=true
    and moves the key to the back of the order, the rest keeping theirs. *)
Theorem lru_get_moves_to_back : forall s k now d,
  wf s -> policy s = LRU -> lookup k (items s) = Some d -> after now (Timeout d) = false ->
  Keys_all (fst (Get s k now)) = filter (fun x => negb (String.eqb x k)) (Keys_all s) ++ [k] /\
  snd (Get s k now) = (Value d, true).
Proof.
  intros s k now d Hw Hp E Ha; unfold Get; rewrite E, Ha, Hp; simpl.
  unfold Keys_all; simpl; unfold move_to_back; rewrite E.
  rewrite map_app, map_fst_remove_key by exact Hw; split; reflexivity.
Qed.

Lemma lru_get_moves_to_back_witness :
  let s := run (NewStore LRU 3 60) [(0, OSet "a" (AInt 1)); (0, OSet "b" (AInt 2))] in
  Keys_all (fst (Get s "a" 1)) = filter (fun x => negb (String.eqb x "a")) (Keys_all s) ++ ["a"%string] /\
  snd (Get s "a" 1) = (AInt 1, true).
Proof.
  intros s; apply (lru_get_moves_to_back s "a" 1 (mkCacheData (AInt 1) 60000000000)).
  - apply run_wf, NewStore_wf.
  - reflexivity.
  - reflexivity.
  - reflexivity.
Defined.

(** ** Further properties of the multi-level Get *)

Lemma nosync_step : forall rd w ev, nosync_inv rd w -> nosync_inv rd (step w ev).
Proof.
  intros rd w ev [Hr Ht].
  assert (Hgen : forall i c pc pc' w1,
            nth_error (threads w) i = Some (c, pc) ->
            match pc' with PSync _ _ => False | _ => True end ->
            redis w1 = redis w -> threads w1 = threads w ->
            nosync_inv rd (set_pc w1 i c pc')).
  { intros i c pc pc' w1 Hi Hp E1 E2; split; [unfold set_pc; simpl; rewrite E1; exact Hr|].
    intros j c' p' Hj; unfold set_pc in Hj; simpl in Hj.
    rewrite E2, (nth_error_replace_nth _ _ _ _ _ Hi) in Hj.
    destruct (Nat.eqb i j);
      [injection Hj as <- <-; exact (conj (proj1 (Ht _ _ _ Hi)) Hp) | exact (Ht _ _ _ Hj)]. }
  destruct ev as [i|si j|d]; simpl; [|split; assumption | split; assumption].
  unfold step_thread.
  destruct (nth_error (threads w) i) as [[c pc]|] eqn:Ei; [|split; assumption].
  destruct (Ht _ _ _ Ei) as [Hs Hp].
  destruct pc; simpl in Hp; try contradiction.
  - destruct (Get (store_at w (c_store c)) (c_key c) (clock w)) as [st' [x ok]].
    eapply (Hgen i c _ _ _ Ei); [destruct ok; exact I | reflexivity | reflexivity].
  - destruct (assoc String.eqb (c_key c) (sfGroup w));
      (eapply (Hgen i c _ _ _ Ei); [exact I | reflexivity | reflexivity]).
  - destruct (Get (store_at w (c_store c)) (c_key c) (clock w)) as [st' [x ok]].
    eapply (Hgen i c _ _ _ Ei); [destruct ok; exact I | reflexivity | reflexivity].
  - destruct (redis_hit w (c_key c));
      (eapply (Hgen i c _ _ _ Ei); [exact I | reflexivity | reflexivity]).
  - eapply (Hgen i c _ _ _ Ei); [exact I | reflexivity | reflexivity].
  - destruct (c_fetch c) as [x [e|]];
      (eapply (Hgen i c _ _ _ Ei); [exact I | reflexivity | reflexivity]).
  - rewrite Hs; eapply (Hgen i c _ _ _ Ei); [exact I | reflexivity | reflexivity].
  - eapply (Hgen i c _ _ _ Ei); [exact I | reflexivity | reflexivity].
  - destruct (assoc Nat.eqb fid (calls w)); [|split; assumption].
    eapply (Hgen i c _ _ _ Ei); [exact I | reflexivity | reflexivity].
  - split; assumption.
Qed.

(** Extra: calls made with [syncToRedis = false], as every call of
    [GetWithMultiLevelCacheDefault] and [GetWithMultiLevelCacheSimple]
    is, never write tier 2, whatever the interleaving (time passing
    included) and whatever the stores, Redis contents and fetch results. *)
Theorem nosync_never_writes_redis : forall sts rd up cs now,
  Forall (fun c => c_sync c = false) cs ->
  forall sched, redis (run_world (init_world sts rd up cs now) sched) = rd.
Proof.
  intros sts rd up cs now Hcs sched.
  assert (H : nosync_inv rd (run_world (init_world sts rd up cs now) sched)).
  { apply run_world_ind; [intros w ev; apply nosync_step|].
    split; [reflexivity|].
    intros i c pc Hi; destruct (nth_error_init_threads _ _ _ _ Hi) as [-> Hin].
    rewrite Forall_forall in Hcs; exact (conj (Hcs _ Hin) I). }
  exact (proj1 H).
Qed.

Lemma nosync_never_writes_redis_witness :
  let c := mkCfg "k" 0 (AInt 7, None) 60 300 false in
  redis (run_world (init_world [NewStore LRU 10 60] [] true [c; c] 0)
           (map Thr [0; 1; 0; 1; 0; 1; 0; 1; 0; 1; 0; 1; 0; 1]%nat)) = [].
Proof. intros c; apply nosync_never_writes_redis; repeat constructor. Defined.

Lemma nth_error_set_pc_same : forall w i c pc p,
  nth_error (threads w) i = Some p ->
  nth_error (threads (set_pc w i c pc)) i = Some (c, pc).
Proof.
  intros w i c pc p H; unfold set_pc; simpl.
  rewrite (nth_error_replace_nth _ _ _ _ _ H), Nat.eqb_refl; reflexivity.
Qed.

Lemma threads_set_store : forall w si st, threads (set_store w si st) = threads w.
Proof. reflexivity. Qed.

(** Extra: when the caller's tier-1 store holds a live entry for the key,
    the first check returns [(value, nil)] in one step, and so does the
    double-check inside [sfGroup.Do]: neither touches the group, the
    fetch or tier 2. *)
Theorem tier1_hit_returns : forall w i c d,
  wf (store_at w (c_store c)) ->
  lookup (c_key c) (items (store_at w (c_store c))) = Some d ->
  after (clock w) (Timeout d) = false ->
  (nth_error (threads w) i = Some (c, PStart) ->
   let w' := step w (Thr i) in
   nth_error (threads w') i = Some (c, PDone (Value d, None)) /\
   sfGroup w' = sfGroup w /\ fetch_log w' = fetch_log w /\ redis w' = redis w) /\
  (forall fid, nth_error (threads w) i = Some (c, PRecheck fid) ->
   let w' := step w (Thr i) in
   nth_error (threads w') i = Some (c, PFinish fid (Value d, None)) /\
   sfGroup w' = sfGroup w /\ fetch_log w' = fetch_log w /\ redis w' = redis w).
Proof.
  intros w i c d Hw Hl Ha.
  destruct (Get_live _ _ _ _ Hw Hl Ha) as (Hs & _).
  split; [|intros fid]; intros Hi; simpl; unfold step_thread; rewrite Hi;
    destruct (Get (store_at w (c_store c)) (c_key c) (clock w)) as [st' [x ok]];
    simpl in Hs; injection Hs as -> ->;
    (split; [eapply nth_error_set_pc_same; rewrite threads_set_store; exact Hi|auto]).
Qed.

Lemma tier1_hit_returns_witness :
  let c := mkCfg "k" 0 (AInt 7, None) 60 300 false in
  let w := init_world [run (NewStore LRU 10 60) [(0, OSet "k" (AInt 5))]] [] true [c] 1 in
  (nth_error (threads w) 0 = Some (c, PStart) ->
   let w' := step w (Thr 0) in
   nth_error (threads w') 0 = Some (c, PDone (AInt 5, None)) /\
   sfGroup w' = sfGroup w /\ fetch_log w' = fetch_log w /\ redis w' = redis w) /\
  (forall fid, nth_error (threads w) 0 = Some (c, PRecheck fid) ->
   let w' := step w (Thr 0) in
   nth_error (threads w') 0 = Some (c, PFinish fid (AInt 5, None)) /\
   sfGroup w' = sfGroup w /\ fetch_log w' = fetch_log w /\ redis w' = redis w).
Proof.
  intros c w.
  apply (tier1_hit_returns w 0 c (mkCacheData (AInt 5) 60000000000)).
  - apply run_wf, NewStore_wf.
  - reflexivity.
  - reflexivity.
Defined.

(** Extra: when tier 2 holds the key as JSON, the goroutine running the
    call decodes it, writes it to its tier-1 store with TTL memTTL and
    finishes the call with [(value, nil)] in two steps, without running
    the fetch and without writing tier 2. *)
Theorem tier2_hit_fills_tier1 : forall w i c fid x,
  nth_error (threads w) i = Some (c, PRemote fid) ->
  redis_hit w (c_key c) = Some x ->
  (c_store c < length (stores w))%nat ->
  wf (store_at w (c_store c)) ->
  let w2 := step (step w (Thr i)) (Thr i) in
  nth_error (threads w2) i = Some (c, PFinish fid (x, None)) /\
  fetch_log w2 = fetch_log w /\ redis w2 = redis w /\
  lookup (c_key c) (items (store_at w2 (c_store c))) =
    Some (mkCacheData x (clock w + ttl_duration (c_memTTL c))).
Proof.
  intros w i c fid x Hi Hh Hlen Hw; cbv zeta.
  assert (E1 : step w (Thr i) = set_pc w i c (PRemoteSet fid x))
    by (simpl; unfold step_thread; rewrite Hi, Hh; reflexivity).
  assert (Hi1 : nth_error (threads (set_pc w i c (PRemoteSet fid x))) i = Some (c, PRemoteSet fid x))
    by exact (nth_error_set_pc_same _ _ _ _ _ Hi).
  rewrite E1; simpl; unfold step_thread; rewrite Hi1.
  split; [eapply nth_error_set_pc_same; rewrite threads_set_store; exact Hi1|].
  split; [reflexivity | split; [reflexivity|]].
  rewrite store_at_set_pc, store_at_set_store by exact Hlen.
  rewrite Nat.eqb_refl, store_at_set_pc.
  apply lookup_SetWithTTL; exact Hw.
Qed.

Lemma tier2_hit_fills_tier1_witness :
  let c := mkCfg "k" 0 (AInt 7, None) 60 300 false in
  let w := run_world (init_world [NewStore LRU 10 60] [("k"%string, PJson (AInt 3))] true [c] 0)
             (map Thr [0; 0; 0]%nat) in
  let w2 := step (step w (Thr 0)) (Thr 0) in
  nth_error (threads w2) 0 = Some (c, PFinish 0 (AInt 3, None)) /\
  fetch_log w2 = fetch_log w /\ redis w2 = redis w /\
  lookup "k" (items (store_at w2 0)) = Some (mkCacheData (AInt 3) (clock w + ttl_duration 60)).
Proof.
  intros c w; apply (tier2_hit_fills_tier1 w 0 c 0 (AInt 3)).
  - reflexivity.
  - reflexivity.
  - simpl; lia.
  - vm_compute; constructor.
Defined.
